(** * Model service: minimal-replace diff engine and semantic colouring

    A shallow embedding of [ModelServiceImpl] (bulk content replacement and
    its line-based diff) and of [ModelSemanticColoring] (the debounced
    semantic-token pipeline) together with the properties stated about
    them.  Line numbers and columns are 1-based naturals, as in the
    editor; token data are integers with the 32-bit conversions of the
    source written out. *)

From Stdlib Require Import Ascii String.
From Stdlib Require Import List Arith PeanoNat Lia Bool ZArith.
Import ListNotations.
Local Open Scope nat_scope.

(** Option is the error monad of the embedding: [None] stands for a call
    that throws (an illegal line number, an invalid range). *)
Notation "x <- a ;; b" :=
  (match a with Some x => b | None => None end)
  (at level 61, a at next level, right associativity).

(* ================================================================== *)
(** * Text: lines, terminators, buffers *)
(* ================================================================== *)

Module Text.

Definition Line := list ascii.

Definition LFc : ascii := "010"%char.
Definition CRc : ascii := "013"%char.

(** [EndOfLineSequence] of the editor model. *)
Inductive EndOfLineSequence := LF | CRLF.

Definition eol_text (e : EndOfLineSequence) : list ascii :=
  match e with
  | LF => [LFc]
  | CRLF => [CRc; LFc]
  end.


(** [EndOfLinePreference]: which terminator [getValueInRange] writes. *)
Inductive EndOfLinePreference := TextDefined | PreferLF | PreferCRLF.

(** Strict equality [===] of two line contents. *)
Fixpoint line_eqb (a b : Line) : bool :=
  match a, b with
  | [], [] => true
  | x :: a', y :: b' => Ascii.eqb x y && line_eqb a' b'
  | _, _ => false
  end.

Definition is_eol_char (c : ascii) : bool :=
  Ascii.eqb c LFc || Ascii.eqb c CRc.

(** A line content never holds a terminator character. *)
Definition no_eol (l : Line) : bool := forallb (fun c => negb (is_eol_char c)) l.

(** Modelled from the spec: the document storage is not part of the
    sources.  A text is cut into lines at every terminator (CRLF, LF or a
    lone CR); this is what the storage does with a new content and with
    the text of an edit. *)
Fixpoint splitLines (t : list ascii) : list Line :=
  match t with
  | [] => [[]]
  | c :: t' =>
      if Ascii.eqb c LFc then [] :: splitLines t'
      else if Ascii.eqb c CRc then
        [] :: match t' with
              | c' :: t'' => if Ascii.eqb c' LFc then splitLines t'' else splitLines t'
              | [] => splitLines t'
              end
      else match splitLines t' with
           | l :: ls => (c :: l) :: ls
           | [] => [[c]]
           end
  end.

Fixpoint joinLines (eol : list ascii) (ls : list Line) : list ascii :=
  match ls with
  | [] => []
  | l :: rest =>
      match rest with
      | [] => l
      | _ :: _ => l ++ eol ++ joinLines eol rest
      end
  end.

(** Modelled from the spec: the document storage ([ITextBuffer]) is not
    part of the sources.  A buffer is its line contents (at least one
    line) and its terminator. *)
Record TextBuffer := mkTextBuffer {
  lines : list Line;
  eol : EndOfLineSequence
}.

(** [ILineSequence] has the single method [getLineContent]; an object of
    that interface is represented by the method. *)
Definition ILineSequence := nat -> option Line.

Record Range := mkRange {
  startLineNumber : nat;
  startColumn : nat;
  endLineNumber : nat;
  endColumn : nat
}.

(** [IIdentifiedSingleEditOperation] as built by [EditOperation.replaceMove]. *)
Record EditOperation := mkEdit {
  range : Range;
  text : list ascii;
  forceMoveMarkers : bool
}.

Definition replaceMove (r : Range) (t : list ascii) : EditOperation :=
  mkEdit r t true.

(** Modelled from the spec: the read-only accessors of the document
    storage, with 1-based line numbers and columns; an illegal line number
    throws. *)
Definition getLineCount (b : TextBuffer) : nat := length (lines b).

(** Modelled from the spec: the content of line [n] of the storage. *)
Definition getLineContent (b : TextBuffer) : ILineSequence :=
  fun n => if n =? 0 then None else nth_error (lines b) (n - 1).

(** Modelled from the spec: the length of line [n] of the storage. *)
Definition getLineLength (b : TextBuffer) (n : nat) : option nat :=
  l <- getLineContent b n ;; Some (length l).

(** Modelled from the spec: the column behind the last character of
    line [n]. *)
Definition getLineMaxColumn (b : TextBuffer) (n : nat) : option nat :=
  l <- getLineContent b n ;; Some (length l + 1).

Definition eol_of_preference (b : TextBuffer) (p : EndOfLinePreference) : list ascii :=
  match p with
  | TextDefined => eol_text (eol b)
  | PreferLF => eol_text LF
  | PreferCRLF => eol_text CRLF
  end.

(** Position [(l1,c1)] is before or at [(l2,c2)]. *)
Definition pos_leb (l1 c1 l2 c2 : nat) : bool :=
  (l1 <? l2) || ((l1 =? l2) && (c1 <=? c2)).

(** Modelled from the spec: a range the storage accepts is ordered, lies
    on existing lines, and has its columns between 1 and the line's max
    column. *)
Definition validRange (b : TextBuffer) (r : Range) : bool :=
  match getLineContent b (startLineNumber r), getLineContent b (endLineNumber r) with
  | Some ls, Some le =>
      pos_leb (startLineNumber r) (startColumn r) (endLineNumber r) (endColumn r)
      && (1 <=? startColumn r) && (startColumn r <=? length ls + 1)
      && (1 <=? endColumn r) && (endColumn r <=? length le + 1)
  | _, _ => false
  end.

(** The lines with numbers [a+1 .. b] of a buffer. *)
Definition linesBetween (b : TextBuffer) (a z : nat) : list Line :=
  firstn (z - a) (skipn a (lines b)).

(** Modelled from the spec: the pieces of line content a half-open range
    covers, one piece per line touched; an invalid range throws. *)
Definition rangePieces (b : TextBuffer) (r : Range) : option (list Line) :=
  if negb (validRange b r) then None
  else
    ls <- getLineContent b (startLineNumber r) ;;
    le <- getLineContent b (endLineNumber r) ;;
    if startLineNumber r =? endLineNumber r
    then Some [firstn (endColumn r - startColumn r) (skipn (startColumn r - 1) ls)]
    else Some (skipn (startColumn r - 1) ls
               :: linesBetween b (startLineNumber r) (endLineNumber r - 1)
               ++ [firstn (endColumn r - 1) le]).

(** Modelled from the spec: the document storage's [getValueInRange] is not
    part of the sources.  The text of a half-open line/column range: the
    covered pieces of line content, separated by the terminator the
    preference selects. *)
Definition getValueInRange (b : TextBuffer) (r : Range) (p : EndOfLinePreference)
  : option (list ascii) :=
  ps <- rangePieces b r ;; Some (joinLines (eol_of_preference b p) ps).


(** Modelled from the spec: applying an edit operation (a half-open
    line/column range of the old content and the text replacing it) is done
    by the document storage, which is not part of the sources.  What is
    left of the first touched line and right of the last one is kept, the
    text is put between, and the result is cut into lines again. *)
Definition applyEdit (b : TextBuffer) (e : EditOperation) : option TextBuffer :=
  let r := range e in
  if negb (validRange b r) then None
  else
    ls <- getLineContent b (startLineNumber r) ;;
    le <- getLineContent b (endLineNumber r) ;;
    Some (mkTextBuffer
            (firstn (startLineNumber r - 1) (lines b)
             ++ splitLines (firstn (startColumn r - 1) ls ++ text e
                            ++ skipn (endColumn r - 1) le)
             ++ skipn (endLineNumber r) (lines b))
            (eol b)).

Fixpoint applyEdits (b : TextBuffer) (es : list EditOperation) : option TextBuffer :=
  match es with
  | [] => Some b
  | e :: es' => b' <- applyEdit b e ;; applyEdits b' es'
  end.

(** Well-formed buffer: at least one line, no terminator inside a line. *)
Definition wf_buffer (b : TextBuffer) : Prop :=
  lines b <> [] /\ forallb no_eol (lines b) = true.

End Text.

(* ================================================================== *)
(** * The document and the model service *)
(* ================================================================== *)

Module Model.
Import Text.


(** What one undo step is made of. *)
Inductive UndoOp :=
| OpEOL (before after : EndOfLineSequence)
| OpEdits (es : list EditOperation).

(** The mutating calls a document receives. *)
Inductive ModelCall :=
| CallPushStackElement
| CallPushEOL (e : EndOfLineSequence)
| CallPushEditOperations (es : list EditOperation).

(** Modelled from the spec: the document ([TextModel]) is not part of the
    sources.  It owns a text buffer, an undo stack made of closed edit
    groups (newest first), the edit group being built, and notifies
    observers of content changes; [calls] logs the mutating calls it
    received, oldest first. *)
Record TextModel := mkTextModel {
  buffer : TextBuffer;
  undoStack : list (list UndoOp);
  openGroup : list UndoOp;
  contentChanges : nat;
  calls : list ModelCall
}.

Definition model_getLineCount (m : TextModel) : nat := getLineCount (buffer m).
Definition model_getLineContent (m : TextModel) : ILineSequence := getLineContent (buffer m).
Definition model_getLineMaxColumn (m : TextModel) (n : nat) : option nat :=
  getLineMaxColumn (buffer m) n.










(** ** The diff engine *)

(** The loop of [_commonPrefix]: [i] and [result] advance together while
    [i < maxResult] and the two lines are equal.  [fuel] bounds the number
    of iterations; [maxResult] iterations always suffice. *)
Fixpoint commonPrefix_loop (a : ILineSequence) (aDelta : nat)
    (b : ILineSequence) (bDelta : nat) (maxResult fuel i result : nat) : option nat :=
  match fuel with
  | 0 => if i <? maxResult then None else Some result
  | S fuel' =>
      if i <? maxResult then
        la <- a (aDelta + i) ;;
        lb <- b (bDelta + i) ;;
        if line_eqb la lb
        then commonPrefix_loop a aDelta b bDelta maxResult fuel' (S i) (S result)
        else Some result
      else Some result
  end.

Definition _commonPrefix (a : ILineSequence) (aLen aDelta : nat)
    (b : ILineSequence) (bLen bDelta : nat) : option nat :=
  let maxResult := Nat.min aLen bLen in
  commonPrefix_loop a aDelta b bDelta maxResult maxResult 0 0.

Fixpoint commonSuffix_loop (a : ILineSequence) (aLen aDelta : nat)
    (b : ILineSequence) (bLen bDelta : nat) (maxResult fuel i result : nat) : option nat :=
  match fuel with
  | 0 => if i <? maxResult then None else Some result
  | S fuel' =>
      if i <? maxResult then
        la <- a (aDelta + aLen - i) ;;
        lb <- b (bDelta + bLen - i) ;;
        if line_eqb la lb
        then commonSuffix_loop a aLen aDelta b bLen bDelta maxResult fuel' (S i) (S result)
        else Some result
      else Some result
  end.

Definition _commonSuffix (a : ILineSequence) (aLen aDelta : nat)
    (b : ILineSequence) (bLen bDelta : nat) : option nat :=
  let maxResult := Nat.min aLen bLen in
  commonSuffix_loop a aLen aDelta b bLen bDelta maxResult maxResult 0 0.

(** The first half of [_computeEdits]: [None] inside is the equality case,
    otherwise the old range (in the document) and the new range (in the
    staging buffer). *)
Definition computeRanges (model : TextModel) (textBuffer : TextBuffer)
  : option (option (Range * Range)) :=
  let modelLineCount := model_getLineCount model in
  let textBufferLineCount := getLineCount textBuffer in
  commonPrefix <- _commonPrefix (model_getLineContent model) modelLineCount 1
                                (getLineContent textBuffer) textBufferLineCount 1 ;;
  if (modelLineCount =? textBufferLineCount) && (commonPrefix =? modelLineCount)
  then Some None
  else
    commonSuffix <- _commonSuffix (model_getLineContent model)
                                  (modelLineCount - commonPrefix) commonPrefix
                                  (getLineContent textBuffer)
                                  (textBufferLineCount - commonPrefix) commonPrefix ;;
    if 0 <? commonSuffix then
      Some (Some (mkRange (commonPrefix + 1) 1 (modelLineCount - commonSuffix + 1) 1,
                  mkRange (commonPrefix + 1) 1 (textBufferLineCount - commonSuffix + 1) 1))
    else if 0 <? commonPrefix then
      c1 <- model_getLineMaxColumn model commonPrefix ;;
      c2 <- model_getLineMaxColumn model modelLineCount ;;
      n1 <- getLineLength textBuffer commonPrefix ;;
      n2 <- getLineLength textBuffer textBufferLineCount ;;
      Some (Some (mkRange commonPrefix c1 modelLineCount c2,
                  mkRange commonPrefix (1 + n1) textBufferLineCount (1 + n2)))
    else
      c2 <- model_getLineMaxColumn model modelLineCount ;;
      n2 <- getLineLength textBuffer textBufferLineCount ;;
      Some (Some (mkRange 1 1 modelLineCount c2,
                  mkRange 1 1 textBufferLineCount (1 + n2))).

(** Compute edits to bring [model] to the state of [textBuffer]. *)
Definition _computeEdits (model : TextModel) (textBuffer : TextBuffer)
  : option (list EditOperation) :=
  rs <- computeRanges model textBuffer ;;
  match rs with
  | None => Some []
  | Some (oldRange, newRange) =>
      t <- getValueInRange textBuffer newRange TextDefined ;;
      Some [replaceMove oldRange t]
  end.

(** ** Bulk replacement *)


(** ** Notions the properties are stated with *)

(** The number of leading lines two line sequences share. *)
Fixpoint commonPrefixLen (a b : list Line) : nat :=
  match a, b with
  | x :: a', y :: b' => if line_eqb x y then S (commonPrefixLen a' b') else 0
  | _, _ => 0
  end.

(** The number of trailing lines two line sequences share once the first
    [p] lines of each are set aside. *)
Definition commonSuffixLen (p : nat) (a b : list Line) : nat :=
  commonPrefixLen (rev (skipn p a)) (rev (skipn p b)).

(** Line-for-line identical: the same line count and equal lines pairwise. *)
Definition line_for_line_identical (m : TextModel) (b : TextBuffer) : Prop :=
  model_getLineCount m = getLineCount b
  /\ forall n, 1 <= n <= getLineCount b ->
       model_getLineContent m n = getLineContent b n.

(** A document is well formed when its buffer is. *)
Definition wf_model (m : TextModel) : Prop := wf_buffer (buffer m).

(** Line [n] holds a position of the half-open range [r]. *)
Definition range_covers (r : Range) (n : nat) : Prop :=
  exists c, 1 <= c
    /\ pos_leb (startLineNumber r) (startColumn r) n c = true
    /\ pos_leb (endLineNumber r) (endColumn r) n c = false.

(** The frame property with the bound read literally: no line past
    [oldLineCount - commonSuffix] holds a position of either range. *)
Definition suffix_frame_as_stated (m : TextModel) (tb : TextBuffer) : Prop :=
  forall p s oldRange newRange,
    _commonPrefix (model_getLineContent m) (model_getLineCount m) 1
                  (getLineContent tb) (getLineCount tb) 1 = Some p ->
    _commonSuffix (model_getLineContent m) (model_getLineCount m - p) p
                  (getLineContent tb) (getLineCount tb - p) p = Some s ->
    0 < s ->
    computeRanges m tb = Some (Some (oldRange, newRange)) ->
    forall n, range_covers oldRange n \/ range_covers newRange n ->
              n <= model_getLineCount m - s.



Definition s2l (s : string) : Line := list_ascii_of_string s.

Definition newModel (ls : list string) (e : EndOfLineSequence) : TextModel :=
  mkTextModel (mkTextBuffer (map s2l ls) e) [] [] 0 [].

(** Sample documents and staging buffers. *)
Definition doc_abc : TextModel := newModel ["a"; "b"; "c"]%string LF.
Definition buf_axyc : TextBuffer := mkTextBuffer (map s2l ["a"; "x"; "y"; "c"]%string) CRLF.
Definition doc_x : TextModel := newModel ["x"]%string LF.
Definition buf_abx : TextBuffer := mkTextBuffer (map s2l ["a"; "b"; "x"]%string) LF.

End Model.


(* ================================================================== *)
(** * Semantic tokens: legend, decoding, reconciliation *)
(* ================================================================== *)

Module Tokens.
Import Text.
Local Open Scope Z_scope.

(** The 32-bit conversions of the source language. *)
Definition toUint32 (z : Z) : Z := z mod 2 ^ 32.

Definition toInt32 (z : Z) : Z :=
  let u := z mod 2 ^ 32 in
  if u <? 2 ^ 31 then u else u - 2 ^ 32.

(** A read from a typed array: [None] is [undefined] (index out of range).
    [undefined] converts to 0 in bit operations and typed-array stores. *)
Definition numberOr0 (v : option Z) : Z :=
  match v with Some z => z | None => 0 end.

Record SemanticColoringLegend := mkLegend {
  tokenTypes : list string;
  tokenModifiers : list string
}.

Record SemanticColoringArea := mkArea {
  line : Z;
  data : list Z
}.

Record SemanticColoring := mkColoring {
  areas : list SemanticColoringArea
}.

(** [getTokenStyleMetadata] of the current theme: the token type may be
    [undefined] (a type index outside the legend); the result may be
    [undefined]. *)
Definition ThemeResolver := option string -> list string -> option Z.

(** [MultilineTokens2]: a start line and the flat array of the
    [SparseEncodedTokens], four fields per token. *)
Record MultilineTokens2 := mkMultilineTokens2 {
  mt_startLineNumber : Z;
  mt_tokens : list Z
}.

(** The modifier loop: [modifierIndex] walks the legend's modifier list
    from 0 while [tokenModifierSet !== 0]; bit 0 selects the modifier, then
    the set is shifted right (signed 32-bit shift). *)
Fixpoint modifiers_loop (legendModifiers : list string) (tokenModifierSet : option Z)
  : list string :=
  match legendModifiers with
  | [] => []
  | name :: rest =>
      match tokenModifierSet with
      | Some 0 => []
      | _ =>
          let bits := toInt32 (numberOr0 tokenModifierSet) in
          (if Z.land bits 1 =? 0 then [] else [name])
          ++ modifiers_loop rest (Some (Z.shiftr bits 1))
      end
  end.

(** [legend.tokenTypes[tokenTypeIndex]]. *)
Definition tokenTypeAt (legend : SemanticColoringLegend) (tokenTypeIndex : option Z)
  : option string :=
  match tokenTypeIndex with
  | Some i => if i <? 0 then None else nth_error (tokenTypes legend) (Z.to_nat i)
  | None => None
  end.

(** A store into a [Uint32Array]: converted to 32 bits, ignored when the
    index is out of range. *)
Definition store (dest : list Z) (k : nat) (v : Z) : list Z :=
  if (k <? length dest)%nat
  then firstn k dest ++ toUint32 v :: skipn (S k) dest
  else dest.

(** One iteration of the decoding loop, for the token with index [i]. *)
Definition decode_step (legend : SemanticColoringLegend) (theme : ThemeResolver)
    (srcTokens : list Z) (i : nat) (st : list Z * nat) : list Z * nat :=
  let '(destTokens, destOffset) := st in
  let srcOffset := (5 * i)%nat in
  let deltaLine := nth_error srcTokens srcOffset in
  let startCharacter := nth_error srcTokens (srcOffset + 1) in
  let endCharacter := nth_error srcTokens (srcOffset + 2) in
  let tokenTypeIndex := nth_error srcTokens (srcOffset + 3) in
  let tokenType := tokenTypeAt legend tokenTypeIndex in
  let tokenModifierSet := nth_error srcTokens (srcOffset + 4) in
  let tokenModifiers := modifiers_loop (tokenModifiers legend) tokenModifierSet in
  match theme tokenType tokenModifiers with
  | Some metadata =>
      let d1 := store destTokens destOffset (numberOr0 deltaLine) in
      let d2 := store d1 (destOffset + 1) (numberOr0 startCharacter) in
      let d3 := store d2 (destOffset + 2) (numberOr0 endCharacter) in
      let d4 := store d3 (destOffset + 3) metadata in
      (d4, (destOffset + 4)%nat)
  | None => (destTokens, destOffset)
  end.

(** The loop [for (i = 0; i < tokenCount; i++)] with
    [tokenCount = srcTokens.length / 5], a real division: the test is
    [5 * i < srcTokens.length]. *)
Fixpoint decode_loop (legend : SemanticColoringLegend) (theme : ThemeResolver)
    (srcTokens : list Z) (fuel i : nat) (st : list Z * nat) : list Z * nat :=
  match fuel with
  | O => st
  | S fuel' =>
      if (5 * i <? length srcTokens)%nat
      then decode_loop legend theme srcTokens fuel' (S i)
                       (decode_step legend theme srcTokens i st)
      else st
  end.

(** The body of the loop over the areas of a response. *)
Definition decode_area (legend : SemanticColoringLegend) (theme : ThemeResolver)
    (area : SemanticColoringArea) : MultilineTokens2 :=
  let srcTokens := data area in
  (* new Uint32Array(4 * tokenCount): the length is truncated *)
  let destTokens := repeat 0 (4 * length srcTokens / 5)%nat in
  let '(destTokens, destOffset) :=
    decode_loop legend theme srcTokens (length srcTokens) 0%nat (destTokens, 0%nat) in
  let destTokens :=
    if (destOffset =? length destTokens)%nat then destTokens
    else firstn destOffset destTokens in
  mkMultilineTokens2 (line area) destTokens.

(** ** Notions the properties are stated with *)

(** The five fields of the source token with index [i]. *)
Definition sourceTuple (srcTokens : list Z) (i : nat) : Z * Z * Z * Z * Z :=
  (nth (5 * i) srcTokens 0, nth (5 * i + 1) srcTokens 0, nth (5 * i + 2) srcTokens 0,
   nth (5 * i + 3) srcTokens 0, nth (5 * i + 4) srcTokens 0).

Definition sourceTuples (srcTokens : list Z) : list (Z * Z * Z * Z * Z) :=
  map (sourceTuple srcTokens) (seq 0 (length srcTokens / 5)).

(** The style the theme gives to a source tuple, if any. *)
Definition resolveStyle (legend : SemanticColoringLegend) (theme : ThemeResolver)
    (t : Z * Z * Z * Z * Z) : option Z :=
  let '(_, _, _, ty, mods) := t in
  theme (tokenTypeAt legend (Some ty)) (modifiers_loop (tokenModifiers legend) (Some mods)).

Definition isResolved (legend : SemanticColoringLegend) (theme : ThemeResolver)
    (t : Z * Z * Z * Z * Z) : bool :=
  match resolveStyle legend theme t with Some _ => true | None => false end.

(** The four fields emitted for a source tuple: nothing when the style is
    not resolved. *)
Definition emitted (legend : SemanticColoringLegend) (theme : ThemeResolver)
    (t : Z * Z * Z * Z * Z) : list Z :=
  let '(deltaLine, startCharacter, endCharacter, _, _) := t in
  match resolveStyle legend theme t with
  | Some metadata =>
      [toUint32 deltaLine; toUint32 startCharacter; toUint32 endCharacter; toUint32 metadata]
  | None => []
  end.

(** The modifiers whose bit is set, without early exit. *)
Fixpoint selectBits (names : list string) (bits : Z) : list string :=
  match names with
  | [] => []
  | name :: rest =>
      (if Z.testbit bits 0 then [name] else []) ++ selectBits rest (Z.shiftr bits 1)
  end.

(** ** Reconciliation *)

(** [MultilineTokens2.applyEdit] is not part of the sources.  What an edit
    (a range and the text replacing it) does to a decoded area is a
    parameter of the embedding: the colouring is defined, and its
    properties hold, for every function of this type. *)
Definition ApplyEdit := MultilineTokens2 -> Range -> list ascii -> MultilineTokens2.

End Tokens.

(* ================================================================== *)
(** * The semantic colouring of one document *)
(* ================================================================== *)

Module Coloring.
Import Text Tokens.

(** One change of an [IModelContentChangedEvent]: the replaced range and
    the new text. *)
Record IModelContentChange := mkChange {
  cc_range : Range;
  cc_text : list ascii
}.

Record IModelContentChangedEvent := mkChangedEvent {
  changes : list IModelContentChange
}.

Record SemanticColoringProvider := mkProvider {
  providerId : nat;
  getLegend : SemanticColoringLegend
}.

(** What the colouring does to its collaborators, in order.  A request is
    named by the number of its cancellation token source. *)
Inductive Effect :=
| EProvide (provider request : nat)   (* provider.provideSemanticColoring *)
| ECancel (request : nat)              (* CancellationTokenSource.cancel *)
| ERelease (r : SemanticColoring)      (* SemanticColoring.dispose *)
| EUnexpectedError (err : string)      (* errors.onUnexpectedError *)
| ESchedule                            (* RunOnceScheduler.schedule *)
| ESetSemanticTokens (t : option (list MultilineTokens2)). (* model.setSemanticTokens *)

(** The fields of [ModelSemanticColoring].  Modelled from the spec:
    [RunOnceScheduler] and the [Disposable] base class are not part of the
    sources; the scheduler is represented by whether a run is pending
    (every [schedule] re-arms the one debounce window), the base class by
    whether the listeners registered in the constructor are still
    attached. *)
Record ModelSemanticColoring := mkColoringState {
  _isDisposed : bool;
  _currentResponse : option SemanticColoring;
  _currentRequestCancellationTokenSource : option nat;
  _fetchSemanticTokens : bool;
  listening : bool
}.

(** A provider call that has not completed yet, with what its closure
    holds: the provider and the content changes seen since the call. *)
Record Request := mkRequest {
  requestId : nat;
  requestProvider : SemanticColoringProvider;
  pendingChanges : list IModelContentChangedEvent
}.

(** The colouring together with what surrounds it: the provider calls in
    progress, the document's semantic token store, the current theme, the
    providers registered for the document, and the log of effects. *)
Record World := mkWorld {
  coloring : ModelSemanticColoring;
  outstanding : list Request;
  semanticTokens : option (list MultilineTokens2);
  theme : ThemeResolver;
  providers : list SemanticColoringProvider;
  nextRequest : nat;
  effects : list Effect
}.

Definition withColoring (w : World) (c : ModelSemanticColoring) : World :=
  mkWorld c (outstanding w) (semanticTokens w) (theme w) (providers w)
          (nextRequest w) (effects w).

Definition log (w : World) (e : Effect) : World :=
  mkWorld (coloring w) (outstanding w) (semanticTokens w) (theme w) (providers w)
          (nextRequest w) (effects w ++ [e]).

Definition setCurrentResponse (w : World) (r : option SemanticColoring) : World :=
  let c := coloring w in
  withColoring w (mkColoringState (_isDisposed c) r
                    (_currentRequestCancellationTokenSource c)
                    (_fetchSemanticTokens c) (listening c)).

Definition setTokenSource (w : World) (s : option nat) : World :=
  let c := coloring w in
  withColoring w (mkColoringState (_isDisposed c) (_currentResponse c) s
                    (_fetchSemanticTokens c) (listening c)).

Definition setPending (w : World) (b : bool) : World :=
  let c := coloring w in
  withColoring w (mkColoringState (_isDisposed c) (_currentResponse c)
                    (_currentRequestCancellationTokenSource c) b (listening c)).

(** [this._fetchSemanticTokens.schedule()] *)
Definition schedule (w : World) : World := log (setPending w true) ESchedule.

(** [model.setSemanticTokens(t)] *)
Definition model_setSemanticTokens (w : World) (t : option (list MultilineTokens2)) : World :=
  let w' := log w (ESetSemanticTokens t) in
  mkWorld (coloring w') (outstanding w') t (theme w') (providers w')
          (nextRequest w') (effects w').

(** The constructor: nothing fetched yet, a first run scheduled. *)
Definition newColoring (th : ThemeResolver) (ps : list SemanticColoringProvider) : World :=
  mkWorld (mkColoringState false None None true true) [] None th ps 0 [].

Definition dispose (w : World) : World :=
  let c := coloring w in
  let w := withColoring w (mkColoringState true (_currentResponse c)
                             (_currentRequestCancellationTokenSource c)
                             (_fetchSemanticTokens c) (listening c)) in
  let w := match _currentResponse (coloring w) with
           | Some r => setCurrentResponse (log w (ERelease r)) None
           | None => w
           end in
  let w := match _currentRequestCancellationTokenSource (coloring w) with
           | Some s => setTokenSource (log w (ECancel s)) None
           | None => w
           end in
  (* super.dispose(): the scheduler and the listeners are disposed *)
  let c := coloring w in
  withColoring w (mkColoringState (_isDisposed c) (_currentResponse c)
                    (_currentRequestCancellationTokenSource c) false false).

Definition _getSemanticColoringProvider (w : World) : option SemanticColoringProvider :=
  match providers w with
  | p :: _ => Some p
  | [] => None
  end.

Definition _fetchSemanticTokensNow (w : World) : World :=
  match _currentRequestCancellationTokenSource (coloring w) with
  | Some _ => w   (* there is already a request running, let it finish... *)
  | None =>
      match _getSemanticColoringProvider w with
      | None => w
      | Some provider =>
          let id := nextRequest w in
          let w := setTokenSource w (Some id) in
          mkWorld (coloring w)
                  (outstanding w ++ [mkRequest id provider []])
                  (semanticTokens w) (theme w) (providers w) (S id)
                  (effects w ++ [EProvide (providerId provider) id])
      end
  end.

Section Reconciliation.

Variable applyEdit : ApplyEdit.

(** The three nested loops that adjust the decoded areas: for every pending
    change, for every area, every single change is applied to the area. *)
Definition adjust (pending : list IModelContentChangedEvent)
    (result : list MultilineTokens2) : list MultilineTokens2 :=
  fold_left
    (fun areas change =>
       map (fun area =>
              fold_left (fun a singleChange =>
                           applyEdit a (cc_range singleChange) (cc_text singleChange))
                        (changes change) area)
           areas)
    pending result.

Definition _setSemanticTokens (w : World) (tokens : option SemanticColoring)
    (legend : SemanticColoringLegend) (pending : list IModelContentChangedEvent) : World :=
  let w := match _currentResponse (coloring w) with
           | Some r => setCurrentResponse (log w (ERelease r)) None
           | None => w
           end in
  if _isDisposed (coloring w) then
    (* disposed! *)
    match tokens with
    | Some t => log w (ERelease t)
    | None => w
    end
  else
    let w := setCurrentResponse w tokens in
    match _currentResponse (coloring w) with
    | None => model_setSemanticTokens w None
    | Some response =>
        let result := map (decode_area legend (theme w)) (areas response) in
        match pending with
        | _ :: _ =>
            let result := adjust pending result in
            model_setSemanticTokens (schedule w) (Some result)
        | [] => model_setSemanticTokens w (Some result)
        end
    end.

(** What can happen to a colouring. *)
Inductive Event :=
| ContentChanged (e : IModelContentChangedEvent)
| ProvidersChanged (ps : list SemanticColoringProvider)
| ThemeChanged (t : ThemeResolver)
| TimerElapsed
| RequestResolved (request : nat) (res : option SemanticColoring)
| RequestRejected (request : nat) (err : string)
| Disposed.

Definition findRequest (id : nat) (rs : list Request) : option Request :=
  find (fun r => requestId r =? id) rs.

Definition removeRequest (id : nat) (rs : list Request) : list Request :=
  filter (fun r => negb (requestId r =? id)) rs.

Definition withOutstanding (w : World) (rs : list Request) : World :=
  mkWorld (coloring w) rs (semanticTokens w) (theme w) (providers w)
          (nextRequest w) (effects w).

(** The listener of a request in progress: [pendingChanges.push(e)]. *)
Definition pushChange (e : IModelContentChangedEvent) (r : Request) : Request :=
  mkRequest (requestId r) (requestProvider r) (pendingChanges r ++ [e]).

(** The listeners of the constructor call [schedule] while attached. *)
Definition trigger (w : World) : World :=
  if listening (coloring w) then schedule w else w.

Definition step (w : World) (ev : Event) : World :=
  match ev with
  | ContentChanged e =>
      let w := trigger w in
      withOutstanding w (map (pushChange e) (outstanding w))
  | ProvidersChanged ps =>
      trigger (mkWorld (coloring w) (outstanding w) (semanticTokens w) (theme w) ps
                       (nextRequest w) (effects w))
  | ThemeChanged t =>
      trigger (mkWorld (coloring w) (outstanding w) (semanticTokens w) t (providers w)
                       (nextRequest w) (effects w))
  | TimerElapsed =>
      if _fetchSemanticTokens (coloring w)
      then _fetchSemanticTokensNow (setPending w false)
      else w
  | RequestResolved id res =>
      match findRequest id (outstanding w) with
      | None => w
      | Some r =>
          let w := withOutstanding w (removeRequest id (outstanding w)) in
          let w := setTokenSource w None in
          _setSemanticTokens w res (getLegend (requestProvider r)) (pendingChanges r)
      end
  | RequestRejected id err =>
      match findRequest id (outstanding w) with
      | None => w
      | Some r =>
          let w := withOutstanding w (removeRequest id (outstanding w)) in
          let w := log w (EUnexpectedError err) in
          let w := setTokenSource w None in
          _setSemanticTokens w None (getLegend (requestProvider r)) (pendingChanges r)
      end
  | Disposed => dispose w
  end.

Definition run (w : World) (evs : list Event) : World := fold_left step evs w.

End Reconciliation.

(** ** Notions the properties are stated with *)

Definition isTrigger (ev : Event) : bool :=
  match ev with
  | ContentChanged _ | ProvidersChanged _ | ThemeChanged _ => true
  | _ => false
  end.

Definition isProvide (e : Effect) : bool :=
  match e with EProvide _ _ => true | _ => false end.

Definition isSchedule (e : Effect) : bool :=
  match e with ESchedule => true | _ => false end.

Definition isSetSemanticTokens (e : Effect) : bool :=
  match e with ESetSemanticTokens _ => true | _ => false end.

Definition isCancelOrRelease (e : Effect) : bool :=
  match e with ECancel _ | ERelease _ => true | _ => false end.

(** The effects a step added to the log. *)
Definition added (before after : World) : list Effect :=
  skipn (length (effects before)) (effects after).

(** What holds of every colouring that can be reached: at most one provider
    call is in progress; while the colouring is live, a call in progress
    has its cancellation token source stored; a disposed colouring has no
    pending run and no listener. *)
Definition Inv (w : World) : Prop :=
  length (outstanding w) <= 1
  /\ (_isDisposed (coloring w) = false -> outstanding w <> [] ->
      _currentRequestCancellationTokenSource (coloring w) <> None)
  /\ (_isDisposed (coloring w) = true ->
      _fetchSemanticTokens (coloring w) = false /\ listening (coloring w) = false).

(** The follow-up rule read literally: whatever trigger arrives while a
    request is in progress, and whether or not the debounce window elapses
    before the request completes, a run is pending once it has completed. *)
Definition follow_up_as_stated : Prop :=
  forall applyEdit th ps evs trig mid id r res,
    let w := run applyEdit (newColoring th ps) evs in
    isTrigger trig = true ->
    findRequest id (outstanding w) = Some r ->
    _isDisposed (coloring w) = false ->
    forallb (fun ev => match ev with TimerElapsed => true | _ => isTrigger ev end) mid = true ->
    _fetchSemanticTokens
      (coloring (step applyEdit (run applyEdit (step applyEdit w trig) mid)
                      (RequestResolved id res))) = true.

(** Sample data. *)
Definition sampleLegend : SemanticColoringLegend :=
  mkLegend ["comment"%string] ["readonly"%string].
Definition sampleProvider : SemanticColoringProvider := mkProvider 7 sampleLegend.
Definition themeAll : ThemeResolver := fun _ _ => Some 77%Z.
Definition themeNone : ThemeResolver := fun _ _ => None.
Definition sampleResponse : SemanticColoring :=
  mkColoring [mkArea 1 [0; 0; 3; 0; 0]%Z].
Definition prependX : IModelContentChangedEvent :=
  mkChangedEvent [mkChange (mkRange 1 1 1 1) (list_ascii_of_string "X")].

(** A stand-in for [MultilineTokens2.applyEdit] where an example needs one:
    it hands the area back as decoded. *)
Definition keepArea : ApplyEdit := fun area _ _ => area.

End Coloring.


(* ================================================================== *)
(** * Further notions the properties are stated with *)
(* ================================================================== *)

Module Notions.
Import Text Model Tokens Coloring.

(** A character of line [n] of the buffer lies inside the half-open
    range [r]: some column [c] of the line's content has its position at or
    behind the start and before the end. *)
Definition range_covers_char (b : TextBuffer) (r : Range) (n : nat) : Prop :=
  exists c l,
    getLineContent b n = Some l /\ 1 <= c <= length l
    /\ pos_leb (startLineNumber r) (startColumn r) n c = true
    /\ pos_leb (endLineNumber r) (endColumn r) n c = false.

(** A fresh document that holds a given buffer. *)
Definition documentOf (b : TextBuffer) : TextModel := mkTextModel b [] [] 0 [].

(** The number of times the decoding loop runs on a source stream: once
    per started group of five fields. *)
Definition loopIterations (srcTokens : list Z) : nat := (length srcTokens + 4) / 5.

(** The theme resolves a style for what iteration [i] reads (fields that
    lie behind the end of the stream read as [undefined]). *)
Definition resolvedAt (legend : SemanticColoringLegend) (theme : ThemeResolver)
    (srcTokens : list Z) (i : nat) : bool :=
  match theme (tokenTypeAt legend (nth_error srcTokens (5 * i + 3)))
              (modifiers_loop (tokenModifiers legend) (nth_error srcTokens (5 * i + 4)))
  with
  | Some _ => true
  | None => false
  end.

Definition resolvedCount (legend : SemanticColoringLegend) (theme : ThemeResolver)
    (srcTokens : list Z) : nat :=
  length (filter (resolvedAt legend theme srcTokens) (seq 0 (loopIterations srcTokens))).

Definition isUint32 (z : Z) : Prop := (0 <= z < 2 ^ 32)%Z.

(** What a source tuple emits when its fields are stored unchanged. *)
Definition emittedVerbatim (legend : SemanticColoringLegend) (theme : ThemeResolver)
    (t : Z * Z * Z * Z * Z) : list Z :=
  let '(deltaLine, startCharacter, endCharacter, _, _) := t in
  match resolveStyle legend theme t with
  | Some metadata => [deltaLine; startCharacter; endCharacter; toUint32 metadata]
  | None => []
  end.

(** The names whose index is a set bit of [set], in the order of the list. *)
Definition selectedByBits (names : list string) (set : Z) : list string :=
  map snd (filter (fun p => Z.testbit set (Z.of_nat (fst p)))
                  (combine (seq 0 (length names)) names)).

(** ** The colouring *)

Definition isCancel (e : Effect) : bool :=
  match e with ECancel _ => true | _ => false end.

Definition isRelease (e : Effect) : bool :=
  match e with ERelease _ => true | _ => false end.

(** Effects that touch neither a provider, nor the scheduler, nor the
    document: releasing a response and logging an error. *)
Definition isQuiet (e : Effect) : bool :=
  match e with ERelease _ | EUnexpectedError _ => true | _ => false end.

Definition isCompletion (ev : Event) : bool :=
  match ev with RequestResolved _ _ | RequestRejected _ _ => true | _ => false end.

Definition isDisposal (ev : Event) : bool :=
  match ev with Disposed => true | _ => false end.

(** The content changes among some events, in order. *)
Definition contentChangesOf (evs : list Event) : list IModelContentChangedEvent :=
  flat_map (fun ev => match ev with ContentChanged e => [e] | _ => [] end) evs.

(** The event completes a provider call that is in progress. *)
Definition completes (w : World) (ev : Event) : bool :=
  match ev with
  | RequestResolved id _ | RequestRejected id _ =>
      match findRequest id (outstanding w) with Some _ => true | None => false end
  | _ => false
  end.

(** The event hands a token result of a call in progress to the colouring. *)
Definition deliversResult (w : World) (ev : Event) : bool :=
  match ev with
  | RequestResolved id (Some _) =>
      match findRequest id (outstanding w) with Some _ => true | None => false end
  | _ => false
  end.

(** How many token results a run of events hands to the colouring. *)
Fixpoint deliveredResults (applyEdit : ApplyEdit) (w : World) (evs : list Event) : nat :=
  match evs with
  | [] => 0
  | ev :: rest =>
      (if deliversResult w ev then 1 else 0)
      + deliveredResults applyEdit (step applyEdit w ev) rest
  end.

(** How many responses the colouring holds: one or none. *)
Definition storedResponses (w : World) : nat :=
  match _currentResponse (coloring w) with Some _ => 1 | None => 0 end.

(** The stored token source names the one call in progress; nothing was
    cancelled while the colouring is live, and at most one cancellation
    ever happened. *)
Definition TokenSourceInv (w : World) : Prop :=
  (forall id, _currentRequestCancellationTokenSource (coloring w) = Some id ->
              exists r, outstanding w = [r] /\ requestId r = id)
  /\ (_isDisposed (coloring w) = false -> filter isCancel (effects w) = [])
  /\ (_isDisposed (coloring w) = true ->
      _currentRequestCancellationTokenSource (coloring w) = None)
  /\ length (filter isCancel (effects w)) <= 1.

End Notions.

(* ================================================================== *)
(** * Properties of lines and texts *)
(* ================================================================== *)

Import Text Model.

Section TextFacts.

Lemma line_eqb_eq (a b : Line) : line_eqb a b = true <-> a = b.
Proof.
  revert b; induction a as [|x a IH]; intros [|y b]; simpl; split; intro H;
    try reflexivity; try discriminate.
  - apply andb_true_iff in H as [Hxy Hab].
    apply Ascii.eqb_eq in Hxy. apply IH in Hab. congruence.
  - injection H as -> ->. rewrite Ascii.eqb_refl. simpl. now apply IH.
Qed.

Lemma line_eqb_refl (a : Line) : line_eqb a a = true.
Proof. now apply line_eqb_eq. Qed.


Lemma splitLines_cons (t : list ascii) : exists h r, splitLines t = h :: r.
Proof.
  induction t as [|c t IH]; simpl.
  - now exists [], [].
  - destruct (Ascii.eqb c LFc); [now eexists _, _|].
    destruct (Ascii.eqb c CRc); [now eexists _, _|].
    destruct IH as (h & r & ->). now eexists _, _.
Qed.

(** A line without terminator is glued to the first line of what follows. *)
Lemma splitLines_app_line (l : Line) (t : list ascii) :
  no_eol l = true ->
  splitLines (l ++ t) =
  match splitLines t with
  | h :: r => (l ++ h) :: r
  | [] => [l]
  end.
Proof.
  induction l as [|c l IH]; simpl; intro H.
  - destruct (splitLines_cons t) as (h & r & ->). reflexivity.
  - apply andb_true_iff in H as [Hc Hl].
    unfold is_eol_char in Hc. apply negb_true_iff, orb_false_iff in Hc as [H1 H2].
    rewrite H1, H2, (IH Hl).
    destruct (splitLines t); reflexivity.
Qed.

Lemma splitLines_eol (e : EndOfLineSequence) (t : list ascii) :
  splitLines (eol_text e ++ t) = [] :: splitLines t.
Proof. destruct e; reflexivity. Qed.

Lemma splitLines_line (l : Line) : no_eol l = true -> splitLines l = [l].
Proof.
  intro H. rewrite <- (app_nil_r l) at 1.
  rewrite (splitLines_app_line l [] H). simpl. now rewrite app_nil_r.
Qed.

(** Splitting undoes joining, for lines that hold no terminator. *)
Lemma splitLines_join (e : EndOfLineSequence) (ls : list Line) :
  forallb no_eol ls = true -> ls <> [] ->
  splitLines (joinLines (eol_text e) ls) = ls.
Proof.
  induction ls as [|l rest IH]; intros Hwf Hne; [congruence|].
  simpl in Hwf. apply andb_true_iff in Hwf as [Hl Hrest].
  destruct rest as [|l' rest'].
  - simpl. now apply splitLines_line.
  - change (joinLines (eol_text e) (l :: l' :: rest'))
      with (l ++ eol_text e ++ joinLines (eol_text e) (l' :: rest')).
    rewrite (splitLines_app_line _ _ Hl), splitLines_eol, IH by (auto; discriminate).
    now rewrite app_nil_r.
Qed.

Lemma joinLines_cons_app (eol : list ascii) (x y : Line) (r : list Line) :
  joinLines eol ((x ++ y) :: r) = x ++ joinLines eol (y :: r).
Proof. destruct r; simpl; [reflexivity|]. now rewrite <- app_assoc. Qed.

Lemma joinLines_snoc_app (eol : list ascii) (ls : list Line) (l : Line) (t : list ascii) :
  joinLines eol (ls ++ [l]) ++ t = joinLines eol (ls ++ [l ++ t]).
Proof.
  induction ls as [|x ls IH]; simpl; [reflexivity|].
  destruct ls as [|y ls']; simpl in *.
  - now rewrite <- !app_assoc.
  - rewrite <- !app_assoc. f_equal. f_equal. exact IH.
Qed.

Lemma forallb_no_eol_app (a b : list Line) :
  forallb no_eol (a ++ b) = true <->
  forallb no_eol a = true /\ forallb no_eol b = true.
Proof. rewrite forallb_app. apply andb_true_iff. Qed.

End TextFacts.

(* ================================================================== *)
(** * The diff engine: prefix and suffix scans *)
(* ================================================================== *)

Section PrefixSuffix.

Lemma commonPrefixLen_nil_r (a : list Line) : commonPrefixLen a [] = 0.
Proof. destruct a; reflexivity. Qed.

Lemma commonPrefixLen_le (a b : list Line) :
  commonPrefixLen a b <= Nat.min (length a) (length b).
Proof.
  revert b; induction a as [|x a IH]; intros [|y b]; simpl; try lia.
  destruct (line_eqb x y); [specialize (IH b)|]; lia.
Qed.

Lemma commonPrefixLen_firstn (a b : list Line) :
  firstn (commonPrefixLen a b) a = firstn (commonPrefixLen a b) b.
Proof.
  revert b; induction a as [|x a IH]; intros [|y b]; simpl; try reflexivity.
  destruct (line_eqb x y) eqn:E; [|reflexivity].
  apply line_eqb_eq in E. simpl. now rewrite IH, E.
Qed.

Lemma commonPrefixLen_refl (a : list Line) : commonPrefixLen a a = length a.
Proof. induction a as [|x a IH]; simpl; [|rewrite line_eqb_refl, IH]; reflexivity. Qed.

Lemma commonPrefixLen_full (a b : list Line) :
  length a = length b -> commonPrefixLen a b = length a -> a = b.
Proof.
  intros Hlen Hp. pose proof (commonPrefixLen_firstn a b) as H.
  rewrite Hp in H. rewrite firstn_all in H. rewrite Hlen, firstn_all in H. exact H.
Qed.

Lemma skipn_nth_error_cons {A} (l : list A) (i : nat) (x : A) :
  nth_error l i = Some x -> skipn i l = x :: skipn (S i) l.
Proof.
  revert i; induction l as [|y l IH]; intros [|i] H; simpl in *; try discriminate.
  - now injection H as ->.
  - now apply IH.
Qed.

Lemma skipn_length_app {A} (l1 l2 : list A) : skipn (length l1) (l1 ++ l2) = l2.
Proof. now rewrite skipn_app, skipn_all, Nat.sub_diag. Qed.

Lemma nth_error_some_lt {A} (l : list A) (i : nat) :
  i < length l -> exists x, nth_error l i = Some x.
Proof.
  intro H. destruct (nth_error l i) eqn:E; [eauto|].
  apply nth_error_None in E. lia.
Qed.

Lemma getLineContent_S (b : TextBuffer) (i : nat) :
  getLineContent b (S i) = nth_error (lines b) i.
Proof. unfold getLineContent. simpl. now rewrite Nat.sub_0_r. Qed.

(** The prefix loop computes the number of shared leading lines. *)
Lemma commonPrefix_loop_refines (a b : TextBuffer) (fuel i r : nat) :
  forall mx, mx = Nat.min (length (lines a)) (length (lines b)) ->
  i <= mx -> mx - i <= fuel ->
  commonPrefix_loop (getLineContent a) 1 (getLineContent b) 1 mx fuel i r
  = Some (r + commonPrefixLen (skipn i (lines a)) (skipn i (lines b))).
Proof.
  intros mx Hmx. revert i r. induction fuel as [|fuel IH]; intros i r Hi Hf; simpl.
  - assert (i = mx) as -> by lia. rewrite Nat.ltb_irrefl.
    f_equal. enough (commonPrefixLen (skipn mx (lines a)) (skipn mx (lines b)) = 0) by lia.
    destruct (Nat.le_ge_cases (length (lines a)) (length (lines b))).
    + replace mx with (length (lines a)) by lia. now rewrite skipn_all.
    + replace mx with (length (lines b)) by lia.
      now rewrite (skipn_all (lines b)), commonPrefixLen_nil_r.
  - destruct (i <? mx) eqn:Hlt.
    + apply Nat.ltb_lt in Hlt.
      destruct (nth_error_some_lt (lines a) i) as [la Ha]; [lia|].
      destruct (nth_error_some_lt (lines b) i) as [lb Hb]; [lia|].
      change (1 + i) with (S i). rewrite !getLineContent_S, Ha, Hb.
      rewrite (skipn_nth_error_cons _ _ _ Ha), (skipn_nth_error_cons _ _ _ Hb).
      cbn [commonPrefixLen]. destruct (line_eqb la lb).
      * rewrite IH by lia. f_equal. lia.
      * f_equal. lia.
    + apply Nat.ltb_ge in Hlt. assert (i = mx) as -> by lia.
      f_equal. enough (commonPrefixLen (skipn mx (lines a)) (skipn mx (lines b)) = 0) by lia.
      destruct (Nat.le_ge_cases (length (lines a)) (length (lines b))).
      * replace mx with (length (lines a)) by lia. now rewrite skipn_all.
      * replace mx with (length (lines b)) by lia.
        now rewrite (skipn_all (lines b)), commonPrefixLen_nil_r.
Qed.

Lemma commonPrefix_correct (m : TextModel) (tb : TextBuffer) :
  _commonPrefix (model_getLineContent m) (model_getLineCount m) 1
                (getLineContent tb) (getLineCount tb) 1
  = Some (commonPrefixLen (lines (buffer m)) (lines tb)).
Proof.
  unfold _commonPrefix, model_getLineContent, model_getLineCount, getLineCount.
  rewrite commonPrefix_loop_refines by (reflexivity || lia). reflexivity.
Qed.

(** Reading line [la - i] from the end is reading position [i] of the
    reversed remainder. *)
Lemma nth_error_rev_skipn (l : list Line) (p i : nat) :
  i < length l - p ->
  nth_error (rev (skipn p l)) i = nth_error l (length l - i - 1).
Proof.
  intro H. rewrite nth_error_rev, length_skipn.
  assert ((i <? length l - p) = true) as -> by now apply Nat.ltb_lt.
  rewrite nth_error_skipn. f_equal. lia.
Qed.

(** The suffix loop computes the number of shared trailing lines of what
    remains after the prefix. *)
Lemma commonSuffix_loop_refines (a b : TextBuffer) (p fuel i r : nat) :
  forall la lb mx,
  la = length (lines a) -> lb = length (lines b) ->
  mx = Nat.min (la - p) (lb - p) ->
  p <= la -> p <= lb -> i <= mx -> mx - i <= fuel ->
  commonSuffix_loop (getLineContent a) (la - p) p (getLineContent b) (lb - p) p mx fuel i r
  = Some (r + commonPrefixLen (skipn i (rev (skipn p (lines a))))
                              (skipn i (rev (skipn p (lines b))))).
Proof.
  intros la lb mx Hla Hlb Hmx Hpa Hpb. revert i r.
  assert (Hend : forall r, Some r =
     Some (r + commonPrefixLen (skipn mx (rev (skipn p (lines a))))
                               (skipn mx (rev (skipn p (lines b)))))).
  { intro r. f_equal.
    enough (commonPrefixLen (skipn mx (rev (skipn p (lines a))))
                            (skipn mx (rev (skipn p (lines b)))) = 0) by lia.
    destruct (Nat.le_ge_cases (la - p) (lb - p)).
    - rewrite (skipn_all2 (rev (skipn p (lines a)))); [reflexivity|].
      rewrite length_rev, length_skipn. lia.
    - rewrite (skipn_all2 (rev (skipn p (lines b)))); [apply commonPrefixLen_nil_r|].
      rewrite length_rev, length_skipn. lia. }
  induction fuel as [|fuel IH]; intros i r Hi Hf; simpl.
  - assert (i = mx) as -> by lia. rewrite Nat.ltb_irrefl. apply Hend.
  - destruct (i <? mx) eqn:Hlt.
    + apply Nat.ltb_lt in Hlt.
      assert (Ha : nth_error (rev (skipn p (lines a))) i = nth_error (lines a) (la - i - 1))
        by (rewrite Hla; apply nth_error_rev_skipn; lia).
      assert (Hb : nth_error (rev (skipn p (lines b))) i = nth_error (lines b) (lb - i - 1))
        by (rewrite Hlb; apply nth_error_rev_skipn; lia).
      destruct (nth_error_some_lt (lines a) (la - i - 1)) as [xa Hxa]; [lia|].
      destruct (nth_error_some_lt (lines b) (lb - i - 1)) as [xb Hxb]; [lia|].
      replace (p + (la - p) - i) with (S (la - i - 1)) by lia.
      replace (p + (lb - p) - i) with (S (lb - i - 1)) by lia.
      rewrite !getLineContent_S, Hxa, Hxb.
      rewrite Hxa in Ha. rewrite Hxb in Hb.
      rewrite (skipn_nth_error_cons _ _ _ Ha), (skipn_nth_error_cons _ _ _ Hb).
      cbn [commonPrefixLen]. destruct (line_eqb xa xb).
      * rewrite IH by lia. f_equal. lia.
      * f_equal. lia.
    + apply Nat.ltb_ge in Hlt. assert (i = mx) as -> by lia. apply Hend.
Qed.

Lemma commonSuffix_correct (m : TextModel) (tb : TextBuffer) (p : nat) :
  p <= model_getLineCount m -> p <= getLineCount tb ->
  _commonSuffix (model_getLineContent m) (model_getLineCount m - p) p
                (getLineContent tb) (getLineCount tb - p) p
  = Some (commonSuffixLen p (lines (buffer m)) (lines tb)).
Proof.
  intros Ha Hb.
  unfold _commonSuffix, model_getLineContent, model_getLineCount, getLineCount in *.
  rewrite (commonSuffix_loop_refines (buffer m) tb p _ 0 0 _ _ _ eq_refl eq_refl eq_refl)
    by lia.
  reflexivity.
Qed.

Lemma commonSuffixLen_le (p : nat) (a b : list Line) :
  commonSuffixLen p a b <= Nat.min (length a - p) (length b - p).
Proof.
  unfold commonSuffixLen.
  pose proof (commonPrefixLen_le (rev (skipn p a)) (rev (skipn p b))) as H.
  now rewrite !length_rev, !length_skipn in H.
Qed.

(** Both sequences split into the shared prefix, their own middle and the
    shared suffix. *)
Lemma diff_decomposition (a b : list Line) :
  let p := commonPrefixLen a b in
  let s := commonSuffixLen p a b in
  exists P MA MB S,
    a = P ++ MA ++ S /\ b = P ++ MB ++ S /\ length P = p /\ length S = s.
Proof.
  intros p s.
  pose proof (commonPrefixLen_le a b) as Hp. fold p in Hp.
  pose proof (commonSuffixLen_le p a b) as Hs. fold s in Hs.
  pose proof (commonPrefixLen_firstn a b) as HP. fold p in HP.
  pose proof (commonPrefixLen_firstn (rev (skipn p a)) (rev (skipn p b))) as HS.
  fold (commonSuffixLen p a b) in HS. fold s in HS.
  rewrite !firstn_rev in HS. apply rev_inj in HS. rewrite !length_skipn in HS.
  exists (firstn p a), (firstn (length a - p - s) (skipn p a)),
         (firstn (length b - p - s) (skipn p b)), (skipn (length a - p - s) (skipn p a)).
  repeat split.
  - now rewrite !firstn_skipn.
  - rewrite HS at 1. rewrite firstn_skipn, HP. now rewrite firstn_skipn.
  - rewrite length_firstn. lia.
  - rewrite !length_skipn. lia.
Qed.

End PrefixSuffix.

(* ================================================================== *)
(** * Ranges over whole lines and up to a line end *)
(* ================================================================== *)

(** Decide the comparisons of the goal from linear arithmetic. *)
Ltac decide_comparisons :=
  repeat match goal with
  | |- context [?a <? ?b] =>
      first [ replace (a <? b) with true by (symmetry; apply Nat.ltb_lt; simpl; lia)
            | replace (a <? b) with false by (symmetry; apply Nat.ltb_ge; simpl; lia) ]
  | |- context [?a <=? ?b] =>
      first [ replace (a <=? b) with true by (symmetry; apply Nat.leb_le; simpl; lia)
            | replace (a <=? b) with false by (symmetry; apply Nat.leb_gt; simpl; lia) ]
  | |- context [?a =? ?b] =>
      first [ replace (a =? b) with true by (symmetry; apply Nat.eqb_eq; simpl; lia)
            | replace (a =? b) with false by (symmetry; apply Nat.eqb_neq; simpl; lia) ]
  end.

Section RangeFacts.

Lemma getLineContent_middle (X : list Line) (y : Line) (Z : list Line)
    (e : EndOfLineSequence) (n : nat) :
  n = length X + 1 ->
  getLineContent (mkTextBuffer (X ++ y :: Z) e) n = Some y.
Proof.
  intros ->. replace (length X + 1) with (S (length X)) by lia.
  rewrite getLineContent_S. simpl.
  rewrite nth_error_app2 by lia. now rewrite Nat.sub_diag.
Qed.

Lemma last_snoc {A} (l : list A) (x d : A) : last (l ++ [x]) d = x.
Proof. induction l as [|y l IH]; simpl; [reflexivity|]. destruct (l ++ [x]) eqn:E; [now destruct l|exact IH]. Qed.

Lemma list_snoc_cases {A} (l : list A) : l = [] \/ exists l' x, l = l' ++ [x].
Proof.
  induction l as [|y l IH]; [now left|right].
  destruct IH as [->|(l' & x & ->)].
  - now exists [], y.
  - now exists (y :: l'), x.
Qed.

Lemma linesBetween_middle (X : list Line) (y : Line) (Y Z : list Line)
    (e : EndOfLineSequence) (a z : nat) :
  a = length X + 1 -> z = a + length Y ->
  linesBetween (mkTextBuffer (X ++ y :: Y ++ Z) e) a z = Y.
Proof.
  intros -> ->. unfold linesBetween. simpl lines.
  replace (X ++ y :: Y ++ Z) with ((X ++ [y]) ++ Y ++ Z)
    by (rewrite <- app_assoc; reflexivity).
  replace (length X + 1) with (length (X ++ [y])) by (rewrite length_app; simpl; lia).
  rewrite skipn_app, skipn_all, Nat.sub_diag, skipn_O, app_nil_l.
  replace (length (X ++ [y]) + length Y - length (X ++ [y])) with (length Y) by lia.
  now rewrite firstn_app, firstn_all, Nat.sub_diag, firstn_0, app_nil_r.
Qed.

(** A range from column 1 of a line to column 1 of a later line covers the
    whole lines between, each followed by a terminator. *)
Lemma rangePieces_whole_lines (X Y : list Line) (z : Line) (Z : list Line)
    (e : EndOfLineSequence) :
  rangePieces (mkTextBuffer (X ++ Y ++ z :: Z) e)
              (mkRange (length X + 1) 1 (length X + length Y + 1) 1)
  = Some (Y ++ [[]]).
Proof.
  unfold rangePieces, validRange. simpl startLineNumber. simpl endLineNumber.
  simpl startColumn. simpl endColumn.
  assert (Hend : getLineContent (mkTextBuffer (X ++ Y ++ z :: Z) e)
                                (length X + length Y + 1) = Some z).
  { rewrite app_assoc. apply getLineContent_middle. rewrite length_app. lia. }
  destruct Y as [|y Y'].
  - simpl length in *. rewrite Nat.add_0_r in *. simpl app in *. rewrite Hend.
    unfold pos_leb. decide_comparisons. reflexivity.
  - assert (Hstart : getLineContent (mkTextBuffer (X ++ (y :: Y') ++ z :: Z) e)
                                    (length X + 1) = Some y).
    { simpl app. now apply getLineContent_middle. }
    rewrite Hstart, Hend. unfold pos_leb. decide_comparisons.
    simpl negb. cbv iota. change (1 - 1) with 0. rewrite firstn_0, skipn_O.
    change (X ++ (y :: Y') ++ z :: Z) with (X ++ y :: Y' ++ z :: Z).
    rewrite (linesBetween_middle X y Y' (z :: Z) e) by (simpl; lia).
    reflexivity.
Qed.

(** A range from a column of one line to the end of the last line covers the
    rest of that line and every line after it. *)
Lemma rangePieces_to_end (X : list Line) (y : Line) (Y : list Line)
    (e : EndOfLineSequence) (c : nat) :
  1 <= c <= length y + 1 ->
  rangePieces (mkTextBuffer (X ++ y :: Y) e)
              (mkRange (length X + 1) c (length X + 1 + length Y)
                       (length (last (y :: Y) []) + 1))
  = Some (skipn (c - 1) y :: Y).
Proof.
  intros Hc.
  assert (Hstart : getLineContent (mkTextBuffer (X ++ y :: Y) e) (length X + 1) = Some y)
    by now apply getLineContent_middle.
  destruct (list_snoc_cases Y) as [->|(Y0 & yl & ->)].
  - unfold rangePieces, validRange.
    cbn [startLineNumber endLineNumber startColumn endColumn last length].
    rewrite Nat.add_0_r, Hstart.
    unfold pos_leb. decide_comparisons. simpl.
    rewrite firstn_all2; [reflexivity|]. rewrite length_skipn. lia.
  - assert (Hlast : last (y :: Y0 ++ [yl]) [] = yl).
    { change (y :: Y0 ++ [yl]) with ((y :: Y0) ++ [yl]). apply last_snoc. }
    rewrite Hlast.
    assert (HlenY : length (Y0 ++ [yl]) = S (length Y0))
      by (rewrite length_app; simpl; lia).
    rewrite HlenY in *.
    assert (Hend : getLineContent (mkTextBuffer (X ++ y :: Y0 ++ [yl]) e)
                     (length X + 1 + S (length Y0)) = Some yl).
    { replace (X ++ y :: Y0 ++ [yl]) with ((X ++ y :: Y0) ++ yl :: [])
        by (rewrite <- app_assoc; reflexivity).
      apply getLineContent_middle. rewrite !length_app. simpl. lia. }
    unfold rangePieces, validRange.
    cbn [startLineNumber endLineNumber startColumn endColumn].
    rewrite Hstart, Hend. unfold pos_leb.
    decide_comparisons. simpl negb. cbv iota.
    rewrite (linesBetween_middle X y Y0 [yl] e) by (simpl; lia).
    replace (length yl + 1 - 1) with (length yl) by lia.
    now rewrite firstn_all.
Qed.

End RangeFacts.

(* ================================================================== *)
(** * Applying the computed edit *)
(* ================================================================== *)

Section ApplyFacts.

Lemma pos_leb_spec (l1 c1 l2 c2 : nat) :
  pos_leb l1 c1 l2 c2 = true <-> l1 < l2 \/ (l1 = l2 /\ c1 <= c2).
Proof.
  unfold pos_leb. rewrite orb_true_iff, andb_true_iff, Nat.ltb_lt, Nat.eqb_eq, Nat.leb_le.
  reflexivity.
Qed.

Lemma pos_leb_false (l1 c1 l2 c2 : nat) :
  pos_leb l1 c1 l2 c2 = false <-> l2 < l1 \/ (l1 = l2 /\ c2 < c1).
Proof.
  unfold pos_leb. rewrite orb_false_iff, andb_false_iff, Nat.ltb_ge, Nat.eqb_neq, Nat.leb_gt.
  lia.
Qed.

Lemma getLineContent_last (X : list Line) (y : Line) (Y : list Line)
    (e : EndOfLineSequence) (n : nat) :
  n = length X + 1 + length Y ->
  getLineContent (mkTextBuffer (X ++ y :: Y) e) n = Some (last (y :: Y) []).
Proof.
  intros ->. destruct (list_snoc_cases Y) as [->|(Y0 & yl & ->)].
  - simpl length. rewrite Nat.add_0_r. now apply getLineContent_middle.
  - change (y :: Y0 ++ [yl]) with ((y :: Y0) ++ [yl]). rewrite last_snoc.
    replace (X ++ (y :: Y0) ++ [yl]) with ((X ++ y :: Y0) ++ yl :: [])
      by (rewrite <- app_assoc; reflexivity).
    apply getLineContent_middle. rewrite !length_app. simpl. lia.
Qed.

(** Replacing whole lines: the lines before and from the end line on are
    kept, the text is glued in front of the end line. *)
Lemma applyEdit_whole_lines (X Y : list Line) (z : Line) (Z : list Line)
    (e : EndOfLineSequence) (t : list ascii) :
  applyEdit (mkTextBuffer (X ++ Y ++ z :: Z) e)
            (replaceMove (mkRange (length X + 1) 1 (length X + length Y + 1) 1) t)
  = Some (mkTextBuffer (X ++ splitLines (t ++ z) ++ Z) e).
Proof.
  assert (Hend : getLineContent (mkTextBuffer (X ++ Y ++ z :: Z) e)
                                (length X + length Y + 1) = Some z).
  { rewrite app_assoc. apply getLineContent_middle. rewrite length_app. lia. }
  assert (Hstart : exists y, getLineContent (mkTextBuffer (X ++ Y ++ z :: Z) e)
                                            (length X + 1) = Some y).
  { destruct Y as [|y Y'].
    - exists z. now apply getLineContent_middle.
    - exists y. now apply getLineContent_middle. }
  destruct Hstart as [y Hstart].
  unfold applyEdit, validRange, replaceMove.
  cbn [range text startLineNumber endLineNumber startColumn endColumn].
  rewrite Hstart, Hend.
  rewrite (proj2 (pos_leb_spec _ _ _ _)) by lia. decide_comparisons.
  simpl negb. cbv iota. cbn [lines eol].
  change (1 - 1) with 0. rewrite firstn_0, skipn_O, app_nil_l.
  replace (length X + 1 - 1) with (length X) by lia.
  rewrite firstn_app, firstn_all, Nat.sub_diag, firstn_0, app_nil_r.
  do 3 f_equal.
  replace (X ++ Y ++ z :: Z) with ((X ++ Y ++ [z]) ++ Z)
    by (rewrite <- !app_assoc; reflexivity).
  replace (length X + length Y + 1) with (length (X ++ Y ++ [z]))
    by (rewrite !length_app; simpl; lia).
  now rewrite skipn_app, skipn_all, Nat.sub_diag, skipn_O, app_nil_l.
Qed.

(** Replacing from a column of a line to the end of the last line. *)
Lemma applyEdit_to_end (X : list Line) (y : Line) (Y : list Line)
    (e : EndOfLineSequence) (c : nat) (t : list ascii) :
  1 <= c <= length y + 1 ->
  applyEdit (mkTextBuffer (X ++ y :: Y) e)
            (replaceMove (mkRange (length X + 1) c (length X + 1 + length Y)
                                  (length (last (y :: Y) []) + 1)) t)
  = Some (mkTextBuffer (X ++ splitLines (firstn (c - 1) y ++ t)) e).
Proof.
  intros Hc.
  pose proof (getLineContent_middle X y Y e _ eq_refl) as Hstart.
  pose proof (getLineContent_last X y Y e _ eq_refl) as Hend.
  assert (Hord : pos_leb (length X + 1) c (length X + 1 + length Y)
                         (length (last (y :: Y) []) + 1) = true).
  { apply pos_leb_spec. destruct Y as [|y' Y']; simpl length; simpl last; lia. }
  remember (last (y :: Y) []) as yl eqn:Hyl. clear Hyl.
  unfold applyEdit, validRange, replaceMove.
  cbn [range text startLineNumber endLineNumber startColumn endColumn].
  rewrite Hstart, Hend, Hord. decide_comparisons.
  simpl negb. cbv iota. cbn [lines eol].
  replace (length X + 1 - 1) with (length X) by lia.
  rewrite firstn_app, firstn_all, Nat.sub_diag, firstn_0, app_nil_r.
  replace (length yl + 1 - 1) with (length yl) by lia.
  rewrite skipn_all, app_nil_r.
  replace (length X + 1 + length Y) with (length (X ++ y :: Y))
    by (rewrite length_app; simpl; lia).
  now rewrite skipn_all, app_nil_r.
Qed.

(** The same facts for any range with the right components. *)
Lemma rangePieces_to_end_gen (X : list Line) (y : Line) (Y : list Line)
    (e : EndOfLineSequence) (r : Range) :
  startLineNumber r = length X + 1 ->
  1 <= startColumn r <= length y + 1 ->
  endLineNumber r = length X + 1 + length Y ->
  endColumn r = length (last (y :: Y) []) + 1 ->
  rangePieces (mkTextBuffer (X ++ y :: Y) e) r = Some (skipn (startColumn r - 1) y :: Y).
Proof.
  destruct r as [sl sc el ec]. simpl. intros -> Hc -> ->.
  now apply rangePieces_to_end.
Qed.

Lemma applyEdit_to_end_gen (X : list Line) (y : Line) (Y : list Line)
    (e : EndOfLineSequence) (r : Range) (t : list ascii) :
  startLineNumber r = length X + 1 ->
  1 <= startColumn r <= length y + 1 ->
  endLineNumber r = length X + 1 + length Y ->
  endColumn r = length (last (y :: Y) []) + 1 ->
  applyEdit (mkTextBuffer (X ++ y :: Y) e) (replaceMove r t)
  = Some (mkTextBuffer (X ++ splitLines (firstn (startColumn r - 1) y ++ t)) e).
Proof.
  destruct r as [sl sc el ec]. simpl. intros -> Hc -> ->.
  now apply applyEdit_to_end.
Qed.

Lemma rangePieces_whole_lines_gen (X Y : list Line) (z : Line) (Z : list Line)
    (e : EndOfLineSequence) (r : Range) :
  startLineNumber r = length X + 1 -> startColumn r = 1 ->
  endLineNumber r = length X + length Y + 1 -> endColumn r = 1 ->
  rangePieces (mkTextBuffer (X ++ Y ++ z :: Z) e) r = Some (Y ++ [[]]).
Proof.
  destruct r as [sl sc el ec]. simpl. intros -> -> -> ->.
  apply rangePieces_whole_lines.
Qed.

Lemma applyEdit_whole_lines_gen (X Y : list Line) (z : Line) (Z : list Line)
    (e : EndOfLineSequence) (r : Range) (t : list ascii) :
  startLineNumber r = length X + 1 -> startColumn r = 1 ->
  endLineNumber r = length X + length Y + 1 -> endColumn r = 1 ->
  applyEdit (mkTextBuffer (X ++ Y ++ z :: Z) e) (replaceMove r t)
  = Some (mkTextBuffer (X ++ splitLines (t ++ z) ++ Z) e).
Proof.
  destruct r as [sl sc el ec]. simpl. intros -> -> -> ->.
  apply applyEdit_whole_lines.
Qed.

End ApplyFacts.

(* ================================================================== *)
(** * The diff engine: what [_computeEdits] returns *)
(* ================================================================== *)

Section DiffEngine.

Lemma computeRanges_spec (m : TextModel) (tb : TextBuffer) :
  let A := lines (buffer m) in
  let B := lines tb in
  let p := commonPrefixLen A B in
  let s := commonSuffixLen p A B in
  computeRanges m tb =
  if (length A =? length B) && (p =? length A) then Some None
  else if 0 <? s then
    Some (Some (mkRange (p + 1) 1 (length A - s + 1) 1,
                mkRange (p + 1) 1 (length B - s + 1) 1))
  else if 0 <? p then
    c1 <- model_getLineMaxColumn m p ;;
    c2 <- model_getLineMaxColumn m (length A) ;;
    n1 <- getLineLength tb p ;;
    n2 <- getLineLength tb (length B) ;;
    Some (Some (mkRange p c1 (length A) c2, mkRange p (1 + n1) (length B) (1 + n2)))
  else
    c2 <- model_getLineMaxColumn m (length A) ;;
    n2 <- getLineLength tb (length B) ;;
    Some (Some (mkRange 1 1 (length A) c2, mkRange 1 1 (length B) (1 + n2))).
Proof.
  intros A B p s. unfold computeRanges.
  rewrite commonPrefix_correct. fold A B p.
  unfold model_getLineCount, getLineCount. fold A B.
  destruct ((length A =? length B) && (p =? length A)); [reflexivity|].
  pose proof (commonPrefixLen_le A B) as Hp. fold p in Hp.
  pose proof (commonSuffix_correct m tb p) as Hs.
  unfold model_getLineCount, getLineCount in Hs. fold A B in Hs.
  rewrite Hs by lia. reflexivity.
Qed.

Lemma identical_iff_lines (m : TextModel) (tb : TextBuffer) :
  line_for_line_identical m tb <-> lines (buffer m) = lines tb.
Proof.
  unfold line_for_line_identical, model_getLineCount, model_getLineContent, getLineCount.
  split.
  - intros [Hlen Hall]. apply nth_error_ext. intro i.
    destruct (Nat.lt_ge_cases i (length (lines tb))) as [Hi|Hi].
    + specialize (Hall (S i) ltac:(lia)). now rewrite !getLineContent_S in Hall.
    + rewrite (proj2 (nth_error_None _ _)) by lia.
      now rewrite (proj2 (nth_error_None _ _)) by lia.
  - intro H. split; [now rewrite H|]. intros n Hn.
    unfold getLineContent. now rewrite H.
Qed.

(** The equality test of [_computeEdits] succeeds exactly on equal lines. *)
Lemma equality_case_iff (A B : list Line) :
  (length A =? length B) && (commonPrefixLen A B =? length A) = true <-> A = B.
Proof.
  rewrite andb_true_iff, !Nat.eqb_eq. split.
  - intros [H1 H2]. now apply commonPrefixLen_full.
  - intros ->. split; [reflexivity|apply commonPrefixLen_refl].
Qed.

(** When the lines differ, one edit is returned, and applying it to the
    document's buffer gives the lines of the staging buffer. *)
Lemma computeEdits_differ (m : TextModel) (tb : TextBuffer) :
  wf_model m -> wf_buffer tb ->
  lines (buffer m) <> lines tb ->
  exists e,
    _computeEdits m tb = Some [e]
    /\ applyEdit (buffer m) e = Some (mkTextBuffer (lines tb) (eol (buffer m))).
Proof.
  intros [HneA HwfA] [HneB HwfB] Hdiff.
  unfold _computeEdits. rewrite computeRanges_spec.
  destruct (diff_decomposition (lines (buffer m)) (lines tb))
    as (P & MA & MB & T & HA & HB & HP & HT).
  destruct ((length (lines (buffer m)) =? length (lines tb))
            && (commonPrefixLen (lines (buffer m)) (lines tb) =? length (lines (buffer m))))
    eqn:Heq.
  { apply equality_case_iff in Heq. contradiction. }
  clear Heq.
  remember (commonPrefixLen (lines (buffer m)) (lines tb)) as p eqn:Hp.
  remember (commonSuffixLen p (lines (buffer m)) (lines tb)) as s eqn:Hs.
  clear Hp Hs.
  unfold model_getLineMaxColumn, getLineMaxColumn, getLineLength.
  destruct m as [[A eA] us og cc cl]. destruct tb as [B eB].
  cbn [buffer lines eol] in *. subst A B.
  rewrite !forallb_no_eol_app in HwfA, HwfB.
  destruct HwfA as (HwP & HwMA & HwT). destruct HwfB as (_ & HwMB & _).
  rewrite !length_app.
  destruct (0 <? s) eqn:Hs0.
  - (* a common suffix: whole lines *)
    apply Nat.ltb_lt in Hs0. destruct T as [|s0 T']; [simpl in HT; lia|].
    simpl in HwT. apply andb_true_iff in HwT as [Hws0 HwT'].
    simpl length in *. unfold getValueInRange.
    rewrite (rangePieces_whole_lines_gen P MB s0 T' eB) by (simpl; lia).
    eexists. split; [reflexivity|].
    rewrite (applyEdit_whole_lines_gen P MA s0 T' eA) by (simpl; lia).
    cbn [eol_of_preference eol].
    rewrite joinLines_snoc_app, app_nil_l.
    rewrite splitLines_join.
    + now rewrite <- !app_assoc.
    + apply forallb_no_eol_app. split; [assumption|]. simpl. now rewrite Hws0.
    + now destruct MB.
  - apply Nat.ltb_ge in Hs0.
    destruct T; [|simpl in HT; lia]. rewrite !app_nil_r in *. clear HwT HT Hs0.
    cbn [length]. rewrite !Nat.add_0_r.
    destruct (0 <? p) eqn:Hp0.
    + (* a common prefix only: from the end of its last line *)
      apply Nat.ltb_lt in Hp0.
      destruct (list_snoc_cases P) as [->|(P' & lp & ->)]; [simpl in HP; lia|].
      apply forallb_no_eol_app in HwP as [HwP' Hwlp].
      simpl in Hwlp. rewrite andb_true_r in Hwlp.
      rewrite length_app in *. simpl length in *.
      rewrite <- !app_assoc. cbn [app].
      rewrite (getLineContent_middle P' lp MA eA p) by lia.
      rewrite (getLineContent_last P' lp MA eA) by lia.
      rewrite (getLineContent_middle P' lp MB eB p) by lia.
      rewrite (getLineContent_last P' lp MB eB) by lia.
      unfold getValueInRange.
      rewrite (rangePieces_to_end_gen P' lp MB eB) by (simpl; lia).
      eexists. split; [reflexivity|].
      rewrite (applyEdit_to_end_gen P' lp MA eA) by (simpl; lia).
      cbn [eol_of_preference eol startColumn].
      replace (length lp + 1 - 1) with (length lp) by lia.
      replace (1 + length lp - 1) with (length lp) by lia.
      rewrite skipn_all, firstn_all.
      rewrite <- (joinLines_cons_app _ lp [] MB), app_nil_r.
      rewrite splitLines_join; [reflexivity| |discriminate].
      simpl. now rewrite Hwlp.
    + (* nothing in common: the whole content *)
      apply Nat.ltb_ge in Hp0.
      destruct P; [|simpl in HP; lia]. cbn [app length] in *. clear HwP HP Hp0.
      destruct MA as [|a1 MA']; [congruence|]. destruct MB as [|b1 MB']; [congruence|].
      rewrite (getLineContent_last [] a1 MA' eA) by (simpl; lia).
      rewrite (getLineContent_last [] b1 MB' eB) by (simpl; lia).
      unfold getValueInRange.
      match goal with
      | |- context [rangePieces ?b ?r] =>
          assert (HR : rangePieces b r = Some (b1 :: MB'))
            by (apply (rangePieces_to_end_gen [] b1 MB' eB); simpl; lia);
          rewrite HR
      end.
      eexists. split; [reflexivity|].
      match goal with
      | |- applyEdit ?b (replaceMove ?r ?t) = _ =>
          assert (HE : applyEdit b (replaceMove r t)
                       = Some (mkTextBuffer (splitLines t) eA))
            by (apply (applyEdit_to_end_gen [] a1 MA' eA); simpl; lia);
          rewrite HE
      end.
      cbn [eol_of_preference eol].
      now rewrite splitLines_join.
Qed.

(** The three shapes of the computed edit, on sample documents. *)
Example computeEdits_whole_lines :
  _computeEdits doc_abc buf_axyc
  = Some [replaceMove (mkRange 2 1 3 1)
            (s2l "x" ++ eol_text CRLF ++ s2l "y" ++ eol_text CRLF)].
Proof. reflexivity. Qed.

Example computeEdits_after_prefix :
  _computeEdits doc_abc (mkTextBuffer (map s2l ["a"; "x"; "y"]%string) LF)
  = Some [replaceMove (mkRange 1 2 3 2)
            (eol_text LF ++ s2l "x" ++ eol_text LF ++ s2l "y")].
Proof. reflexivity. Qed.

Example computeEdits_whole_content :
  _computeEdits doc_abc (mkTextBuffer (map s2l ["q"]%string) LF)
  = Some [replaceMove (mkRange 1 1 3 2) (s2l "q")].
Proof. reflexivity. Qed.

Example computeEdits_equal :
  _computeEdits doc_abc (mkTextBuffer (map s2l ["a"; "b"; "c"]%string) CRLF) = Some [].
Proof. reflexivity. Qed.

End DiffEngine.

(* ================================================================== *)
(** * The diff engine: round trip and frame *)
(* ================================================================== *)

Section DiffClaims.

(** The scans stay inside both sequences: no subtraction of
    [_computeEdits] goes below zero and every line read exists. *)
Lemma scan_bounds (m : TextModel) (tb : TextBuffer) :
  exists p s,
    _commonPrefix (model_getLineContent m) (model_getLineCount m) 1
                  (getLineContent tb) (getLineCount tb) 1 = Some p
    /\ _commonSuffix (model_getLineContent m) (model_getLineCount m - p) p
                     (getLineContent tb) (getLineCount tb - p) p = Some s
    /\ p <= Nat.min (model_getLineCount m) (getLineCount tb)
    /\ s <= Nat.min (model_getLineCount m - p) (getLineCount tb - p).
Proof.
  pose proof (commonPrefixLen_le (lines (buffer m)) (lines tb)) as Hp.
  eexists. eexists. split; [apply commonPrefix_correct|].
  split; [apply commonSuffix_correct; unfold model_getLineCount, getLineCount; lia|].
  split; [exact Hp|apply commonSuffixLen_le].
Qed.

(** C1. For every document [m] and staging buffer [tb] (both well formed:
    at least one line, no terminator inside a line), [_computeEdits m tb]
    returns an edit list of at most one edit; applying it to the document's
    buffer succeeds and yields exactly the lines of [tb] (the terminator of
    the document is kept); and the list is empty if and only if the two are
    line-for-line identical (the same line count and every line pairwise
    equal). *)
Theorem computeEdits_roundtrip (m : TextModel) (tb : TextBuffer) :
  wf_model m -> wf_buffer tb ->
  exists edits,
    _computeEdits m tb = Some edits
    /\ length edits <= 1
    /\ (exists b', applyEdits (buffer m) edits = Some b'
                   /\ lines b' = lines tb /\ eol b' = eol (buffer m))
    /\ (edits = [] <-> line_for_line_identical m tb).
Proof.
  intros Hm Hb.
  destruct (list_eq_dec (list_eq_dec ascii_dec) (lines (buffer m)) (lines tb)) as [Heq|Hne].
  - exists []. split; [|split; [|split]].
    + unfold _computeEdits. rewrite computeRanges_spec.
      now rewrite (proj2 (equality_case_iff _ _) Heq).
    + simpl. lia.
    + exists (buffer m). now repeat split.
    + split; [intros _; now apply identical_iff_lines|reflexivity].
  - destruct (computeEdits_differ m tb Hm Hb Hne) as (e & He & Happ).
    exists [e]. split; [exact He|split; [|split]].
    + simpl. lia.
    + eexists. simpl. rewrite Happ. now repeat split.
    + split; [discriminate|]. intro Hid. apply identical_iff_lines in Hid. contradiction.
Qed.

Lemma computeEdits_roundtrip_witness :
  wf_model doc_abc /\ wf_buffer buf_axyc /\
  exists edits,
    _computeEdits doc_abc buf_axyc = Some edits
    /\ length edits <= 1
    /\ (exists b', applyEdits (buffer doc_abc) edits = Some b'
                   /\ lines b' = lines buf_axyc /\ eol b' = eol (buffer doc_abc))
    /\ (edits = [] <-> line_for_line_identical doc_abc buf_axyc).
Proof.
  assert (H1 : wf_model doc_abc) by (split; [discriminate|reflexivity]).
  assert (H2 : wf_buffer buf_axyc) by (split; [discriminate|reflexivity]).
  split; [exact H1|split; [exact H2|]].
  exact (computeEdits_roundtrip doc_abc buf_axyc H1 H2).
Defined.

Lemma range_covers_whole_lines (sl el n : nat) :
  range_covers (mkRange sl 1 el 1) n <-> sl <= n < el.
Proof.
  unfold range_covers. simpl. split.
  - intros (c & Hc & H1 & H2).
    apply pos_leb_spec in H1. apply pos_leb_false in H2. lia.
  - intros H. exists 1. split; [lia|]. split.
    + apply pos_leb_spec. lia.
    + apply pos_leb_false. lia.
Qed.

(** C7 (as amended).  When the suffix scan of [_computeEdits] finds
    [s > 0] common trailing lines after a common prefix of [p] lines, the
    edit is whole-line: the old range is [(p+1,1) .. (oldLineCount-s+1,1)],
    the new range is [(p+1,1) .. (newLineCount-s+1,1)], the edit replaces
    the old range by the staging buffer's text over the new range; the old
    range holds no position of a line past [oldLineCount - s], the new range
    none of a line past [newLineCount - s]; and applying the edit leaves the
    last [s] lines of the document as they were. *)
Theorem computeEdits_suffix_frame (m : TextModel) (tb : TextBuffer) (p s : nat) :
  wf_model m -> wf_buffer tb ->
  _commonPrefix (model_getLineContent m) (model_getLineCount m) 1
                (getLineContent tb) (getLineCount tb) 1 = Some p ->
  _commonSuffix (model_getLineContent m) (model_getLineCount m - p) p
                (getLineContent tb) (getLineCount tb - p) p = Some s ->
  0 < s ->
  let oldRange := mkRange (p + 1) 1 (model_getLineCount m - s + 1) 1 in
  let newRange := mkRange (p + 1) 1 (getLineCount tb - s + 1) 1 in
  computeRanges m tb = Some (Some (oldRange, newRange))
  /\ (exists t, getValueInRange tb newRange TextDefined = Some t
                /\ _computeEdits m tb = Some [replaceMove oldRange t]
                /\ exists b', applyEdit (buffer m) (replaceMove oldRange t) = Some b'
                     /\ skipn (length (lines b') - s) (lines b')
                        = skipn (model_getLineCount m - s) (lines (buffer m)))
  /\ (forall n, range_covers oldRange n -> p + 1 <= n <= model_getLineCount m - s)
  /\ (forall n, range_covers newRange n -> p + 1 <= n <= getLineCount tb - s).
Proof.
  intros Hm Hb Hp Hs Hpos oldRange newRange.
  rewrite commonPrefix_correct in Hp. injection Hp as Hp.
  pose proof (commonPrefixLen_le (lines (buffer m)) (lines tb)) as Hple.
  rewrite Hp in Hple.
  rewrite commonSuffix_correct in Hs
    by (unfold model_getLineCount, getLineCount; lia).
  injection Hs as Hs.
  pose proof (commonSuffixLen_le p (lines (buffer m)) (lines tb)) as Hsle.
  rewrite Hs in Hsle.
  assert (Hranges : computeRanges m tb = Some (Some (oldRange, newRange))).
  { rewrite computeRanges_spec. cbv zeta. rewrite Hp, Hs.
    assert ((p =? length (lines (buffer m))) = false) as -> by (apply Nat.eqb_neq; lia).
    rewrite andb_false_r.
    assert ((0 <? s) = true) as -> by now apply Nat.ltb_lt.
    reflexivity. }
  assert (Hne : lines (buffer m) <> lines tb).
  { intro Heq. pose proof (commonPrefixLen_refl (lines tb)) as Hr.
    rewrite <- Heq in Hr at 1. rewrite Hp in Hr. rewrite Heq in Hsle. lia. }
  destruct (computeEdits_differ m tb Hm Hb Hne) as (e & He & Happ).
  split; [exact Hranges|]. split; [|split].
  - unfold _computeEdits in He. rewrite Hranges in He.
    destruct (getValueInRange tb newRange TextDefined) as [t|] eqn:Ht; [|discriminate].
    injection He as <-. exists t. split; [reflexivity|].
    split; [unfold _computeEdits; now rewrite Hranges, Ht|].
    eexists. split; [exact Happ|]. cbn [lines].
    unfold model_getLineCount, getLineCount.
    destruct (diff_decomposition (lines (buffer m)) (lines tb))
      as (P & MA & MB & T & HA & HB & HP & HT).
    rewrite Hp in HP, HT. rewrite Hs in HT.
    rewrite HB at 1 2. rewrite HA at 1 2.
    rewrite !app_assoc.
    rewrite !(length_app _ T), HT, !Nat.add_sub.
    now rewrite !skipn_length_app.
  - intros n Hn. apply range_covers_whole_lines in Hn. lia.
  - intros n Hn. apply range_covers_whole_lines in Hn. lia.
Qed.

Lemma computeEdits_suffix_frame_witness :
  wf_model doc_abc /\ wf_buffer buf_axyc /\
  computeRanges doc_abc buf_axyc
  = Some (Some (mkRange 2 1 3 1, mkRange 2 1 4 1)).
Proof.
  assert (H1 : wf_model doc_abc) by (split; [discriminate|reflexivity]).
  assert (H2 : wf_buffer buf_axyc) by (split; [discriminate|reflexivity]).
  pose proof (computeEdits_suffix_frame doc_abc buf_axyc 1 1 H1 H2
                eq_refl eq_refl (Nat.lt_0_succ 0)) as H.
  split; [exact H1|split; [exact H2|exact (proj1 H)]].
Defined.

(** C7 as stated fails: for the document ["x"] and the staging buffer
    ["a"; "b"; "x"] the suffix scan finds one common line, the new range is
    [(1,1) .. (3,1)] and covers lines 1 and 2 of the staging buffer, both
    past [oldLineCount - commonSuffix = 0]. *)
Lemma suffix_frame_as_stated_fails : ~ suffix_frame_as_stated doc_x buf_abx.
Proof.
  intro H.
  specialize (H 0 1 (mkRange 1 1 1 1) (mkRange 1 1 3 1) eq_refl eq_refl
                (Nat.lt_0_succ 0) eq_refl 2).
  assert (Hcov : range_covers (mkRange 1 1 3 1) 2)
    by (apply range_covers_whole_lines; lia).
  specialize (H (or_intror Hcov)). simpl in H. lia.
Qed.

End DiffClaims.

(* ================================================================== *)
(** * Bulk replacement: [updateModel] *)
(* ================================================================== *)

Section UpdateModel.



















End UpdateModel.

(* ================================================================== *)
(** * Decoding *)
(* ================================================================== *)

Import Tokens Coloring.

Section Decode.
Local Open Scope Z_scope.

Lemma toInt32_range (z : Z) : - 2 ^ 31 <= toInt32 z < 2 ^ 31.
Proof.
  unfold toInt32. pose proof (Z.mod_pos_bound z (2 ^ 32) eq_refl) as H.
  cbv zeta. destruct (z mod 2 ^ 32 <? 2 ^ 31) eqn:E.
  - apply Z.ltb_lt in E. lia.
  - apply Z.ltb_ge in E. lia.
Qed.

Lemma toInt32_id (x : Z) : - 2 ^ 31 <= x < 2 ^ 31 -> toInt32 x = x.
Proof.
  intro H. unfold toInt32. cbv zeta.
  destruct (Z_lt_le_dec x 0) as [Hneg|Hpos].
  - assert (Hm : x mod 2 ^ 32 = x + 2 ^ 32).
    { symmetry. apply (Z.mod_unique x (2 ^ 32) (-1)); lia. }
    rewrite Hm. destruct (x + 2 ^ 32 <? 2 ^ 31) eqn:E.
    + apply Z.ltb_lt in E. lia.
    + lia.
  - rewrite Z.mod_small by lia.
    destruct (x <? 2 ^ 31) eqn:E; [reflexivity|]. apply Z.ltb_ge in E. lia.
Qed.

Lemma land_1_testbit (x : Z) : (Z.land x 1 =? 0) = negb (Z.testbit x 0).
Proof.
  change 1 with (Z.ones 1). rewrite Z.land_ones by lia.
  change (2 ^ 1) with 2. rewrite <- Z.bit0_mod.
  now destruct (Z.testbit x 0).
Qed.

Lemma selectBits_zero (names : list string) : selectBits names 0 = [].
Proof. induction names as [|n r IH]; simpl; [reflexivity|exact IH]. Qed.

Lemma shiftr_1_range (x : Z) :
  - 2 ^ 31 <= x < 2 ^ 31 -> - 2 ^ 31 <= Z.shiftr x 1 < 2 ^ 31.
Proof.
  intro H. rewrite Z.shiftr_div_pow2 by lia. change (2 ^ 1) with 2.
  split.
  - apply Z.div_le_lower_bound; lia.
  - apply Z.div_lt_upper_bound; lia.
Qed.

(** On a 32-bit signed value the loop selects exactly the set bits. *)
Lemma modifiers_loop_int32 (names : list string) (x : Z) :
  - 2 ^ 31 <= x < 2 ^ 31 ->
  modifiers_loop names (Some x) = selectBits names x.
Proof.
  revert x. induction names as [|n r IH]; intros x Hx; [reflexivity|].
  destruct (Z.eq_dec x 0) as [->|Hnz].
  - simpl. now rewrite selectBits_zero.
  - assert (Hstep : modifiers_loop (n :: r) (Some x) =
                    (if Z.land (toInt32 x) 1 =? 0 then [] else [n])
                    ++ modifiers_loop r (Some (Z.shiftr (toInt32 x) 1)))
      by (destruct x; [contradiction|reflexivity|reflexivity]).
    rewrite Hstep, toInt32_id by assumption.
    rewrite IH by now apply shiftr_1_range.
    cbn [selectBits]. rewrite land_1_testbit.
    now destruct (Z.testbit x 0).
Qed.

(** For any stored set, the loop selects the modifiers whose bit is set in
    the 32-bit signed reading of the set. *)
Lemma modifiers_loop_selectBits (names : list string) (z : Z) :
  modifiers_loop names (Some z) = selectBits names (toInt32 z).
Proof.
  destruct names as [|n r]; [reflexivity|].
  destruct (Z.eq_dec z 0) as [->|Hnz].
  - simpl. now rewrite selectBits_zero.
  - assert (Hstep : modifiers_loop (n :: r) (Some z) =
                    (if Z.land (toInt32 z) 1 =? 0 then [] else [n])
                    ++ modifiers_loop r (Some (Z.shiftr (toInt32 z) 1)))
      by (destruct z; [contradiction|reflexivity|reflexivity]).
    rewrite Hstep.
    rewrite modifiers_loop_int32 by (apply shiftr_1_range, toInt32_range).
    cbn [selectBits]. rewrite land_1_testbit.
    now destruct (Z.testbit (toInt32 z) 0).
Qed.

Lemma selectBits_In (names : list string) (bits : Z) (name : string) :
  In name (selectBits names bits) <->
  exists k, nth_error names k = Some name /\ Z.testbit bits (Z.of_nat k) = true.
Proof.
  revert bits. induction names as [|n r IH]; intro bits; cbn [selectBits].
  - split; [intros []|]. intros (k & Hk & _). now destruct k.
  - rewrite in_app_iff, IH. split.
    + intros [H|(k & Hk & Hb)].
      * destruct (Z.testbit bits 0) eqn:E; [|destruct H].
        destruct H as [<-|[]]. now exists 0%nat.
      * exists (S k). split; [exact Hk|].
        rewrite Z.shiftr_spec in Hb by lia.
        now rewrite Nat2Z.inj_succ, <- Z.add_1_r.
    + intros ([|k] & Hk & Hb).
      * left. simpl in Hk. injection Hk as ->.
        change (Z.of_nat 0) with 0 in Hb. rewrite Hb. now left.
      * right. exists k. split; [exact Hk|].
        rewrite Z.shiftr_spec by lia.
        now rewrite Nat2Z.inj_succ, <- Z.add_1_r in Hb.
Qed.

End Decode.


(* ================================================================== *)
(** * Decoding an area *)
(* ================================================================== *)

Section DecodeLoop.

Variable legend : SemanticColoringLegend.
Variable theme : ThemeResolver.

Lemma store_at_end (E : list Z) (z : Z) (R : list Z) (v : Z) :
  store (E ++ z :: R) (length E) v = E ++ toUint32 v :: R.
Proof.
  unfold store. rewrite length_app. simpl length.
  assert ((length E <? length E + S (length R)) = true) as -> by (apply Nat.ltb_lt; lia).
  rewrite firstn_app, firstn_all, Nat.sub_diag, firstn_0, app_nil_r.
  f_equal. f_equal.
  change (E ++ z :: R) with (E ++ [z] ++ R). rewrite app_assoc.
  replace (S (length E)) with (length (E ++ [z])) by (rewrite length_app; simpl; lia).
  apply skipn_length_app.
Qed.

Lemma emitted_length (t : Z * Z * Z * Z * Z) :
  length (emitted legend theme t) = if isResolved legend theme t then 4 else 0.
Proof.
  unfold emitted, isResolved. destruct t as [[[[a b] c] d] e].
  now destruct (resolveStyle legend theme (a, b, c, d, e)).
Qed.

Lemma store_mid (E1 E2 : list Z) (z : Z) (R : list Z) (v : Z) (k : nat) :
  k = length E1 + length E2 ->
  store (E1 ++ E2 ++ z :: R) k v = E1 ++ E2 ++ toUint32 v :: R.
Proof.
  intros ->. rewrite <- length_app, !app_assoc. apply store_at_end.
Qed.

(** Four stores in a row fill four free cells. *)
Lemma store4 (E : list Z) (a b c d : Z) (r : nat) :
  store (store (store (store (E ++ repeat 0%Z (4 + r)) (length E) a)
                      (length E + 1) b) (length E + 2) c) (length E + 3) d
  = E ++ [toUint32 a; toUint32 b; toUint32 c; toUint32 d] ++ repeat 0%Z r.
Proof.
  cbn [Nat.add repeat].
  rewrite (store_mid E [] 0%Z (0%Z :: 0%Z :: 0%Z :: repeat 0%Z r) a) by (simpl; lia).
  cbn [app].
  rewrite (store_mid E [toUint32 a] 0%Z (0%Z :: 0%Z :: repeat 0%Z r) b) by (simpl; lia).
  cbn [app].
  rewrite (store_mid E [toUint32 a; toUint32 b] 0%Z (0%Z :: repeat 0%Z r) c)
    by (simpl; lia).
  cbn [app].
  rewrite (store_mid E [toUint32 a; toUint32 b; toUint32 c] 0%Z (repeat 0%Z r) d)
    by (simpl; lia).
  reflexivity.
Qed.

(** One iteration on a complete source tuple appends what the tuple emits. *)
Lemma decode_step_complete (src : list Z) (n i : nat) (E : list Z) (r : nat) :
  length src = 5 * n -> i < n -> 4 <= r ->
  decode_step legend theme src i (E ++ repeat 0%Z r, length E)
  = (E ++ emitted legend theme (sourceTuple src i)
       ++ repeat 0%Z (r - length (emitted legend theme (sourceTuple src i))),
     length E + length (emitted legend theme (sourceTuple src i))).
Proof.
  intros Hlen Hi Hr.
  assert (Hread : forall k, k < 5 ->
            nth_error src (5 * i + k) = Some (nth (5 * i + k) src 0%Z)).
  { intros k Hk. apply nth_error_nth'. lia. }
  pose proof (Hread 0 ltac:(lia)) as H0. rewrite Nat.add_0_r in H0.
  unfold decode_step, emitted, resolveStyle, sourceTuple. cbv zeta.
  rewrite H0, !Hread by lia.
  cbn [numberOr0].
  destruct (theme (tokenTypeAt legend (Some (nth (5 * i + 3) src 0%Z)))
                  (modifiers_loop (tokenModifiers legend) (Some (nth (5 * i + 4) src 0%Z))))
    as [metadata|].
  - replace r with (4 + (r - 4)) at 1 by lia.
    rewrite store4. cbn [length]. reflexivity.
  - cbn [app length]. now rewrite Nat.sub_0_r, Nat.add_0_r.
Qed.

(** The fuel given by [decode_area] never cuts the loop short: once
    [5 * i + fuel] reaches the length of the source, more fuel changes
    nothing. *)
Lemma decode_loop_fuel_enough (src : list Z) (fuel fuel' i : nat) (st : list Z * nat) :
  length src <= 5 * i + fuel -> fuel <= fuel' ->
  decode_loop legend theme src fuel i st = decode_loop legend theme src fuel' i st.
Proof.
  revert fuel' i st. induction fuel as [|fuel IH]; intros fuel' i st Hlen Hle.
  - destruct fuel' as [|fuel']; [reflexivity|]. cbn [decode_loop].
    assert ((5 * i <? length src) = false) as -> by (apply Nat.ltb_ge; lia).
    reflexivity.
  - destruct fuel' as [|fuel']; [lia|]. cbn [decode_loop].
    destruct (5 * i <? length src); [|reflexivity].
    apply IH; lia.
Qed.

(** The loop over the complete tuples [i .. i+k-1] appends what they emit,
    in order. *)
Lemma decode_loop_complete (src : list Z) (n : nat) :
  length src = 5 * n ->
  forall k i E r fuel,
    i + k = n -> 4 * k <= r -> k <= fuel ->
    exists r',
      decode_loop legend theme src fuel i (E ++ repeat 0%Z r, length E)
      = (E ++ flat_map (emitted legend theme) (map (sourceTuple src) (seq i k))
           ++ repeat 0%Z r',
         length E + length (flat_map (emitted legend theme)
                                     (map (sourceTuple src) (seq i k)))).
Proof.
  intros Hlen. induction k as [|k IH]; intros i E r fuel Hik Hr Hfuel.
  - exists r. cbn [seq map flat_map app length]. rewrite Nat.add_0_r.
    destruct fuel as [|fuel]; [reflexivity|]. cbn [decode_loop].
    assert ((5 * i <? length src) = false) as -> by (apply Nat.ltb_ge; lia).
    reflexivity.
  - destruct fuel as [|fuel]; [lia|]. cbn [decode_loop].
    assert ((5 * i <? length src) = true) as -> by (apply Nat.ltb_lt; lia).
    rewrite (decode_step_complete src n i E r Hlen) by lia.
    set (em := emitted legend theme (sourceTuple src i)).
    assert (Hem : length em <= 4)
      by (unfold em; rewrite emitted_length; destruct (isResolved _ _ _); lia).
    rewrite app_assoc. rewrite <- (length_app E em).
    destruct (IH (S i) (E ++ em) (r - length em) fuel) as (r' & Hloop); try lia.
    exists r'. rewrite Hloop. cbn [seq map flat_map]. fold em.
    now rewrite !length_app, <- !app_assoc, Nat.add_assoc.
Qed.

(** Decoding an area made of complete tuples gives what its tuples emit, in
    source order, and nothing else. *)
Lemma decode_area_complete (area : SemanticColoringArea) (n : nat) :
  length (data area) = 5 * n ->
  decode_area legend theme area
  = mkMultilineTokens2 (line area)
      (flat_map (emitted legend theme) (sourceTuples (data area))).
Proof.
  intro Hlen. unfold decode_area, sourceTuples.
  assert (Hn : length (data area) / 5 = n)
    by (rewrite Hlen, Nat.mul_comm; now apply Nat.div_mul).
  assert (Hcap : 4 * length (data area) / 5 = 4 * n).
  { rewrite Hlen. replace (4 * (5 * n)) with ((4 * n) * 5) by lia. now apply Nat.div_mul. }
  rewrite Hn, Hcap.
  destruct (decode_loop_complete (data area) n Hlen n 0 [] (4 * n) (length (data area)))
    as (r' & Hloop); try lia.
  cbn [app length] in Hloop. rewrite Hloop. cbn [Nat.add].
  set (F := flat_map (emitted legend theme) (map (sourceTuple (data area)) (seq 0 n))).
  f_equal.
  destruct (length F =? length (F ++ repeat 0%Z r')) eqn:E.
  - apply Nat.eqb_eq in E. rewrite length_app, repeat_length in E.
    assert (r' = 0) as -> by lia. apply app_nil_r.
  - now rewrite firstn_app, firstn_all, Nat.sub_diag, firstn_0, app_nil_r.
Qed.

Lemma flat_map_emitted_filter (ts : list (Z * Z * Z * Z * Z)) :
  flat_map (emitted legend theme) ts
  = flat_map (emitted legend theme) (filter (isResolved legend theme) ts).
Proof.
  induction ts as [|t ts IH]; [reflexivity|]. cbn [flat_map filter].
  destruct (isResolved legend theme t) eqn:E.
  - cbn [flat_map]. now rewrite IH.
  - rewrite IH. pose proof (emitted_length t) as H. rewrite E in H.
    now destruct (emitted legend theme t).
Qed.

Lemma flat_map_emitted_length (ts : list (Z * Z * Z * Z * Z)) :
  length (flat_map (emitted legend theme) ts)
  = 4 * length (filter (isResolved legend theme) ts).
Proof.
  induction ts as [|t ts IH]; [reflexivity|]. cbn [flat_map filter].
  rewrite length_app, IH, emitted_length.
  destruct (isResolved legend theme t); simpl; lia.
Qed.

End DecodeLoop.

Section DecodeClaims.

(** C6. For every area whose source stream is made of complete 5-field
    tuples, under any legend and theme: the emitted array is exactly the
    concatenation, in source order, of the four fields
    [(line-delta, start, end, metadata)] of the tuples whose style the
    theme resolves; a tuple with an unresolved style emits nothing (no
    sentinel, no zero fill); and the array's length is four times the
    number of kept tuples. *)
Theorem decode_area_dense (legend : SemanticColoringLegend) (theme : ThemeResolver)
    (area : SemanticColoringArea) (n : nat) :
  length (data area) = 5 * n ->
  let tuples := sourceTuples (data area) in
  let kept := filter (isResolved legend theme) tuples in
  let out := mt_tokens (decode_area legend theme area) in
  out = flat_map (emitted legend theme) kept
  /\ length out = 4 * length kept
  /\ (forall t, In t kept ->
        exists metadata,
          resolveStyle legend theme t = Some metadata
          /\ emitted legend theme t
             = [toUint32 (fst (fst (fst (fst t)))); toUint32 (snd (fst (fst (fst t))));
                toUint32 (snd (fst (fst t))); toUint32 metadata])
  /\ (forall t, In t tuples -> resolveStyle legend theme t = None ->
        ~ In t kept /\ emitted legend theme t = [])
  /\ mt_startLineNumber (decode_area legend theme area) = line area.
Proof.
  intros Hlen tuples kept out.
  assert (Hout : out = flat_map (emitted legend theme) tuples).
  { unfold out. now rewrite (decode_area_complete legend theme area n Hlen). }
  split; [|split; [|split; [|split]]].
  - rewrite Hout. apply flat_map_emitted_filter.
  - rewrite Hout. apply flat_map_emitted_length.
  - intros t Ht. apply filter_In in Ht as [_ Hres].
    unfold isResolved in Hres. unfold emitted.
    destruct t as [[[[a b] c] d] e].
    destruct (resolveStyle legend theme (a, b, c, d, e)) as [md|]; [|discriminate].
    now exists md.
  - intros t Ht Hnone. split.
    + intro Hin. apply filter_In in Hin as [_ Hres].
      unfold isResolved in Hres. now rewrite Hnone in Hres.
    + unfold emitted. destruct t as [[[[a b] c] d] e]. now rewrite Hnone.
  - now rewrite (decode_area_complete legend theme area n Hlen).
Qed.

Lemma decode_area_dense_witness :
  length (data (mkArea 1 [0; 0; 5; 0; 1; 2; 4; 9; 0; 0]%Z)) = 5 * 2
  /\ mt_tokens (decode_area sampleLegend
                  (fun ty mods => match mods with [] => Some 77%Z | _ => None end)
                  (mkArea 1 [0; 0; 5; 0; 1; 2; 4; 9; 0; 0]%Z))
     = [2; 4; 9; 77]%Z.
Proof.
  split; [reflexivity|].
  exact (eq_trans
           (proj1 (decode_area_dense sampleLegend
                     (fun ty mods => match mods with [] => Some 77%Z | _ => None end)
                     (mkArea 1 [0; 0; 5; 0; 1; 2; 4; 9; 0; 0]%Z) 2 eq_refl))
           eq_refl).
Defined.

(** C5. With the legend [{types: ["comment"], modifiers: ["readonly"]}] the
    raw tuple [(0,0,5,0,1)] resolves to the token type ["comment"] and the
    modifier list [["readonly"]]: the decoded output is the tuple with the
    metadata the theme gives to that pair, and it is empty (length 0) when
    the theme gives none.  In general the modifier loop stops as soon as
    the remaining set is zero or the legend's modifier list is exhausted,
    and selects, from bit 0 upward, the modifiers whose bit is set. *)
Theorem decode_sample_tuple :
  tokenTypeAt sampleLegend (Some 0%Z) = Some "comment"%string
  /\ modifiers_loop (tokenModifiers sampleLegend) (Some 1%Z) = ["readonly"%string]
  /\ (forall (theme : ThemeResolver) (l : Z),
        mt_tokens (decode_area sampleLegend theme (mkArea l [0; 0; 5; 0; 1]%Z))
        = match theme (Some "comment"%string) ["readonly"%string] with
          | Some metadata => [0; 0; 5; toUint32 metadata]%Z
          | None => []
          end)
  /\ (forall (theme : ThemeResolver) (l : Z),
        theme (Some "comment"%string) ["readonly"%string] = None ->
        length (mt_tokens (decode_area sampleLegend theme (mkArea l [0; 0; 5; 0; 1]%Z))) = 0)
  /\ (forall names, modifiers_loop names (Some 0%Z) = [])
  /\ (forall set, modifiers_loop [] set = [])
  /\ (forall names set,
        modifiers_loop names (Some set) = selectBits names (toInt32 set))
  /\ (forall names set name,
        In name (modifiers_loop names (Some set)) <->
        exists k, nth_error names k = Some name
                  /\ Z.testbit (toInt32 set) (Z.of_nat k) = true).
Proof.
  assert (Hdecode : forall (theme : ThemeResolver) (l : Z),
        mt_tokens (decode_area sampleLegend theme (mkArea l [0; 0; 5; 0; 1]%Z))
        = match theme (Some "comment"%string) ["readonly"%string] with
          | Some metadata => [0; 0; 5; toUint32 metadata]%Z
          | None => []
          end).
  { intros theme l.
    rewrite (decode_area_complete sampleLegend theme (mkArea l [0; 0; 5; 0; 1]%Z) 1 eq_refl).
    cbn [mt_tokens]. unfold sourceTuples, sourceTuple, emitted, resolveStyle. simpl.
    now destruct (theme (Some "comment"%string) ["readonly"%string]). }
  split; [reflexivity|]. split; [reflexivity|]. split; [exact Hdecode|].
  split; [intros theme l Hnone; now rewrite Hdecode, Hnone|].
  split; [intros [|n r]; reflexivity|].
  split; [reflexivity|].
  split; [exact modifiers_loop_selectBits|].
  intros names set name. rewrite modifiers_loop_selectBits. apply selectBits_In.
Qed.

End DecodeClaims.

(* ================================================================== *)
(** * The colouring: one request at a time *)
(* ================================================================== *)

(** Take a world and its colouring apart and compute. *)
Ltac open_world w :=
  destruct w as [[d resp cts armed lst] out toks th ps nxt eff];
  cbn [coloring outstanding semanticTokens theme providers nextRequest effects
       _isDisposed _currentResponse _currentRequestCancellationTokenSource
       _fetchSemanticTokens listening] in *.

Ltac compute_step :=
  cbn [step trigger schedule dispose _fetchSemanticTokensNow _setSemanticTokens
       _getSemanticColoringProvider model_setSemanticTokens
       log withColoring withOutstanding setCurrentResponse setTokenSource setPending
       coloring outstanding semanticTokens theme providers nextRequest effects
       _isDisposed _currentResponse _currentRequestCancellationTokenSource
       _fetchSemanticTokens listening] in *.

Ltac compute_goal :=
  cbn [step trigger schedule dispose _fetchSemanticTokensNow _setSemanticTokens
       _getSemanticColoringProvider model_setSemanticTokens
       log withColoring withOutstanding setCurrentResponse setTokenSource setPending
       coloring outstanding semanticTokens theme providers nextRequest effects
       _isDisposed _currentResponse _currentRequestCancellationTokenSource
       _fetchSemanticTokens listening].

Section ColoringInvariant.

Variable applyEdit : ApplyEdit.

Lemma findRequest_single (id : nat) (rs : list Request) (r : Request) :
  length rs <= 1 -> findRequest id rs = Some r ->
  rs = [r] /\ removeRequest id rs = [].
Proof.
  destruct rs as [|r0 [|r1 rs]]; simpl; intros Hlen Hfind; try discriminate; try lia.
  destruct (requestId r0 =? id) eqn:E; [|discriminate].
  injection Hfind as <-. now split.
Qed.

Lemma setSemanticTokens_frame (w : World) (tokens : option SemanticColoring)
    (legend : SemanticColoringLegend) (pending : list IModelContentChangedEvent) :
  let w' := _setSemanticTokens applyEdit w tokens legend pending in
  outstanding w' = outstanding w
  /\ _isDisposed (coloring w') = _isDisposed (coloring w)
  /\ _currentRequestCancellationTokenSource (coloring w')
     = _currentRequestCancellationTokenSource (coloring w)
  /\ listening (coloring w') = listening (coloring w)
  /\ (_isDisposed (coloring w) = true ->
      _fetchSemanticTokens (coloring w') = _fetchSemanticTokens (coloring w)).
Proof.
  open_world w. unfold _setSemanticTokens.
  destruct resp, d, tokens as [t|], pending; compute_step; repeat split; congruence.
Qed.

Lemma Inv_new (th : ThemeResolver) (ps : list SemanticColoringProvider) :
  Inv (newColoring th ps).
Proof.
  unfold Inv. simpl. split; [lia|]. split; [congruence|discriminate].
Qed.

Lemma Inv_step (w : World) (ev : Event) : Inv w -> Inv (step applyEdit w ev).
Proof.
  intros (Hlen & Hcts & Hdisp). destruct ev as [e|ps'|t| |id res|id err|].
  - (* content change *)
    open_world w. unfold Inv. destruct lst; compute_step; rewrite ?length_map;
      (split; [exact Hlen|split; [|exact Hdisp || (intro; destruct d; intuition congruence)]]);
      intros Hd Hne; apply Hcts; try assumption; intro Hnil; apply Hne; now rewrite Hnil.
  - open_world w. unfold Inv. destruct lst; compute_step;
      (split; [exact Hlen|split; [exact Hcts|]]); intro Hd; destruct (Hdisp Hd); split; congruence.
  - open_world w. unfold Inv. destruct lst; compute_step;
      (split; [exact Hlen|split; [exact Hcts|]]); intro Hd; destruct (Hdisp Hd); split; congruence.
  - (* the debounce window elapses *)
    open_world w. unfold Inv. destruct armed; compute_step; [|exact (conj Hlen (conj Hcts Hdisp))].
    destruct d; [destruct (Hdisp eq_refl); discriminate|].
    destruct cts as [s|]; compute_step.
    + repeat split; try assumption; try discriminate.
    + destruct ps as [|p ps]; compute_step.
      * repeat split; try assumption; try discriminate.
      * assert (out = []) as ->.
        { destruct out; [reflexivity|]. exfalso. apply (Hcts eq_refl); [discriminate|reflexivity]. }
        simpl. repeat split; try lia; try discriminate.
  - (* the request completes *)
    cbn [step]. destruct (findRequest id (outstanding w)) as [r|] eqn:Hfind;
      [|exact (conj Hlen (conj Hcts Hdisp))].
    destruct (findRequest_single _ _ _ Hlen Hfind) as [Hout Hrem].
    rewrite Hrem.
    match goal with |- Inv (_setSemanticTokens applyEdit ?w0 ?t ?l ?p) =>
      destruct (setSemanticTokens_frame w0 t l p) as (H1 & H2 & H3 & H4 & H5) end.
    unfold Inv. rewrite H1, H2, H3, H4. open_world w. compute_step.
    split; [simpl; lia|]. split; [congruence|].
    intro Hd. rewrite (H5 Hd). now apply Hdisp.
  - cbn [step]. destruct (findRequest id (outstanding w)) as [r|] eqn:Hfind;
      [|exact (conj Hlen (conj Hcts Hdisp))].
    destruct (findRequest_single _ _ _ Hlen Hfind) as [Hout Hrem].
    rewrite Hrem.
    match goal with |- Inv (_setSemanticTokens applyEdit ?w0 ?t ?l ?p) =>
      destruct (setSemanticTokens_frame w0 t l p) as (H1 & H2 & H3 & H4 & H5) end.
    unfold Inv. rewrite H1, H2, H3, H4. open_world w. compute_step.
    split; [simpl; lia|]. split; [congruence|].
    intro Hd. rewrite (H5 Hd). now apply Hdisp.
  - (* disposal *)
    open_world w. unfold Inv. destruct resp, cts; compute_step;
      (split; [exact Hlen|split; [congruence|now split]]).
Qed.

Lemma Inv_run (w : World) (evs : list Event) : Inv w -> Inv (run applyEdit w evs).
Proof.
  revert w. induction evs as [|ev evs IH]; intros w H; [exact H|].
  simpl. apply IH. now apply Inv_step.
Qed.

End ColoringInvariant.

(* ================================================================== *)
(** * The colouring: follow-up, reconciliation, failure, disposal *)
(* ================================================================== *)

Section ColoringClaims.

Variable applyEdit : ApplyEdit.

(** A request, an edit during the request, and a token result: the decoded
    area is handed to [applyEdit] with the edit, the outcome is stored, and
    one more run is scheduled. *)
Example run_with_edit_in_flight :
  let w := run applyEdit (newColoring themeAll [sampleProvider])
               [TimerElapsed; ContentChanged prependX;
                RequestResolved 0 (Some sampleResponse)] in
  effects w
  = [EProvide 7 0; ESchedule; ESchedule;
     ESetSemanticTokens
       (Some [applyEdit (mkMultilineTokens2 1 [0; 0; 3; 77]%Z) (mkRange 1 1 1 1)
                        (list_ascii_of_string "X")])]
  /\ outstanding w = []
  /\ _fetchSemanticTokens (coloring w) = true.
Proof. repeat split. Qed.

(** Without a provider the elapsed window starts nothing. *)
Example run_without_provider :
  let w := run applyEdit (newColoring themeAll []) [TimerElapsed] in
  effects w = [] /\ outstanding w = [] /\ _fetchSemanticTokens (coloring w) = false.
Proof. repeat split. Qed.

Lemma added_app (w w' : World) (l : list Effect) :
  effects w' = effects w ++ l -> added w w' = l.
Proof. intro H. unfold added. rewrite H. apply skipn_length_app. Qed.

Lemma added_same (w w' : World) : effects w' = effects w -> added w w' = [].
Proof. intro H. unfold added. rewrite H. apply skipn_all. Qed.

(** While a request is in progress, a trigger followed by the end of its
    debounce window starts no provider call. *)
Lemma trigger_in_flight (w : World) (trig : Event) :
  Inv w -> isTrigger trig = true -> outstanding w <> [] ->
  let w' := step applyEdit (step applyEdit w trig) TimerElapsed in
  filter isProvide (effects w') = filter isProvide (effects w)
  /\ length (outstanding w') = length (outstanding w).
Proof.
  intros (Hlen & Hcts & Hdisp) Htrig Hout.
  open_world w.
  destruct d.
  - destruct (Hdisp eq_refl) as [-> ->].
    destruct trig; try discriminate; compute_step; rewrite ?length_map; now split.
  - specialize (Hcts eq_refl Hout). destruct cts as [s|]; [|congruence].
    destruct trig; try discriminate; destruct lst, armed; compute_step;
      rewrite ?length_map, ?filter_app; cbn [filter isProvide];
      rewrite ?app_nil_r; now split.
Qed.

(** Completion of a request on a live colouring: with accumulated content
    changes and a token result one run is scheduled; without accumulated
    content changes none is. *)
Lemma completion_follow_up (w : World) (id : nat) (r : Request) :
  Inv w -> findRequest id (outstanding w) = Some r ->
  (forall tokens,
      _isDisposed (coloring w) = false -> pendingChanges r <> [] ->
      let w' := step applyEdit w (RequestResolved id (Some tokens)) in
      _fetchSemanticTokens (coloring w') = true
      /\ filter isSchedule (added w w') = [ESchedule]
      /\ outstanding w' = [])
  /\ (forall res,
        pendingChanges r = [] ->
        let w' := step applyEdit w (RequestResolved id res) in
        _fetchSemanticTokens (coloring w') = _fetchSemanticTokens (coloring w)
        /\ filter isSchedule (added w w') = []).
Proof.
  intros (Hlen & Hcts & Hdisp) Hfind.
  destruct (findRequest_single _ _ _ Hlen Hfind) as [Hout Hrem].
  split.
  - intros tokens Hd Hp. cbv zeta. cbn [step]. rewrite Hfind, Hrem.
    open_world w. subst d. destruct (pendingChanges r) as [|c p] eqn:Ep; [congruence|].
    unfold _setSemanticTokens.
    destruct resp; compute_step.
    + split; [reflexivity|]. split; [|reflexivity].
      erewrite added_app by (compute_goal; rewrite <- ?app_assoc; reflexivity).
      reflexivity.
    + split; [reflexivity|]. split; [|reflexivity].
      erewrite added_app by (compute_goal; rewrite <- ?app_assoc; reflexivity).
      reflexivity.
  - intros res Hp. cbv zeta. cbn [step]. rewrite Hfind, Hrem, Hp.
    open_world w. unfold _setSemanticTokens.
    destruct resp, d, res as [t|]; compute_step;
      (split; [reflexivity|]);
      first [ rewrite added_same by (compute_goal; reflexivity)
            | erewrite added_app by (compute_goal; rewrite <- ?app_assoc; reflexivity) ];
      reflexivity.
Qed.

(** C2 (as amended).  In every reachable state at most one provider call
    is in progress.  While one is, a trigger (content change, provider
    registry change, theme change), also once its debounce window has
    elapsed, starts no provider call.  When the request completes with a
    token result on a live colouring and content changes accumulated during
    the request, exactly one run is scheduled at completion and no call is
    left in progress; when no content change accumulated, completion
    schedules nothing and leaves the debounce state as it was. *)
Theorem at_most_one_in_flight (th : ThemeResolver) (ps : list SemanticColoringProvider)
    (evs : list Event) :
  let w := run applyEdit (newColoring th ps) evs in
  length (outstanding w) <= 1
  /\ (forall trig, isTrigger trig = true -> outstanding w <> [] ->
        let w' := step applyEdit (step applyEdit w trig) TimerElapsed in
        filter isProvide (effects w') = filter isProvide (effects w)
        /\ length (outstanding w') = length (outstanding w))
  /\ (forall id r tokens,
        findRequest id (outstanding w) = Some r ->
        _isDisposed (coloring w) = false -> pendingChanges r <> [] ->
        let w' := step applyEdit w (RequestResolved id (Some tokens)) in
        _fetchSemanticTokens (coloring w') = true
        /\ filter isSchedule (added w w') = [ESchedule]
        /\ outstanding w' = [])
  /\ (forall id r res,
        findRequest id (outstanding w) = Some r -> pendingChanges r = [] ->
        let w' := step applyEdit w (RequestResolved id res) in
        _fetchSemanticTokens (coloring w') = _fetchSemanticTokens (coloring w)
        /\ filter isSchedule (added w w') = []).
Proof.
  intro w. assert (HInv : Inv w) by (apply Inv_run, Inv_new).
  split; [apply HInv|]. split; [|split].
  - intros trig Ht Ho. now apply trigger_in_flight.
  - intros id r tokens Hf. now apply (proj1 (completion_follow_up w id r HInv Hf)).
  - intros id r res Hf. now apply (proj2 (completion_follow_up w id r HInv Hf)).
Qed.



(** A rejected request never schedules a run, whatever accumulated: it
    logs the error, clears the token source, drops the request and its
    listener, and processes an absent result. *)
Lemma rejection_never_schedules (w : World) (id : nat) (r : Request) (err : string) :
  Inv w -> findRequest id (outstanding w) = Some r ->
  let w' := step applyEdit w (RequestRejected id err) in
  _fetchSemanticTokens (coloring w') = _fetchSemanticTokens (coloring w)
  /\ filter isSchedule (added w w') = []
  /\ _currentRequestCancellationTokenSource (coloring w') = None
  /\ outstanding w' = []
  /\ coloring w' = coloring (step applyEdit w (RequestResolved id None))
  /\ semanticTokens w' = semanticTokens (step applyEdit w (RequestResolved id None)).
Proof.
  intros (Hlen & Hcts & Hdisp) Hfind.
  destruct (findRequest_single _ _ _ Hlen Hfind) as [Hout Hrem].
  cbv zeta. cbn [step]. rewrite Hfind, Hrem.
  open_world w. unfold _setSemanticTokens.
  destruct resp, d; compute_step; repeat split;
    first [ rewrite added_same by (compute_goal; reflexivity)
          | erewrite added_app by (compute_goal; rewrite <- ?app_assoc; reflexivity) ];
    reflexivity.
Qed.

(** C4, on the code.  A rejected request is handled as a resolved request
    without result, after the error is logged: the token source is
    cleared and the request (with its listener) is gone.  But with an edit
    accumulated during the request and the debounce window elapsed
    meanwhile, the rejection ends with no run pending, whereas a token
    result in the same state schedules one. *)
Theorem rejected_request_drops_pending_edits :
  let w := run applyEdit (newColoring themeAll [sampleProvider])
               [TimerElapsed; ContentChanged prependX; TimerElapsed] in
  findRequest 0 (outstanding w) = Some (mkRequest 0 sampleProvider [prependX])
  /\ _fetchSemanticTokens (coloring w) = false
  /\ (let w' := step applyEdit w (RequestRejected 0 "boom") in
      added w w' = [EUnexpectedError "boom"; ESetSemanticTokens None]
      /\ _currentRequestCancellationTokenSource (coloring w') = None
      /\ outstanding w' = []
      /\ _fetchSemanticTokens (coloring w') = false)
  /\ (let w' := step applyEdit w (RequestResolved 0 None) in
      added w w' = [ESetSemanticTokens None]
      /\ _fetchSemanticTokens (coloring w') = false)
  /\ (let w' := step applyEdit w (RequestResolved 0 (Some sampleResponse)) in
      _fetchSemanticTokens (coloring w') = true).
Proof. repeat split. Qed.

Lemma disposed_step (w : World) (ev : Event) :
  Inv w -> _isDisposed (coloring w) = true ->
  _isDisposed (coloring (step applyEdit w ev)) = true
  /\ semanticTokens (step applyEdit w ev) = semanticTokens w
  /\ exists l, effects (step applyEdit w ev) = effects w ++ l
               /\ filter isSetSemanticTokens l = [].
Proof.
  intros (Hlen & Hcts & Hdisp) Hd. destruct (Hdisp Hd) as [Harmed Hlst].
  open_world w. subst d armed lst.
  destruct ev as [e|ps'|t| |id res|id err|]; compute_step.
  - repeat split. exists []. now rewrite app_nil_r.
  - repeat split. exists []. now rewrite app_nil_r.
  - repeat split. exists []. now rewrite app_nil_r.
  - repeat split. exists []. now rewrite app_nil_r.
  - destruct (findRequest id out); compute_step;
      [|repeat split; exists []; now rewrite app_nil_r].
    unfold _setSemanticTokens.
    destruct resp, res; compute_step; repeat split;
      eexists; (split; [rewrite <- ?app_assoc; reflexivity || (symmetry; apply app_nil_r)|reflexivity]).
  - destruct (findRequest id out); compute_step;
      [|repeat split; exists []; now rewrite app_nil_r].
    unfold _setSemanticTokens.
    destruct resp; compute_step; repeat split;
      eexists; (split; [rewrite <- ?app_assoc; reflexivity|reflexivity]).
  - destruct resp, cts; compute_step; repeat split;
      eexists; (split; [rewrite <- ?app_assoc; reflexivity || (symmetry; apply app_nil_r)|reflexivity]).
Qed.

Lemma disposed_run (w : World) (evs : list Event) :
  Inv w -> _isDisposed (coloring w) = true ->
  semanticTokens (run applyEdit w evs) = semanticTokens w
  /\ exists l, effects (run applyEdit w evs) = effects w ++ l
               /\ filter isSetSemanticTokens l = [].
Proof.
  revert w. induction evs as [|ev evs IH]; intros w HInv Hd.
  - split; [reflexivity|]. exists []. now rewrite app_nil_r.
  - destruct (disposed_step w ev HInv Hd) as (Hd' & Htok & l1 & He1 & Hf1).
    destruct (IH (step applyEdit w ev) (Inv_step applyEdit w ev HInv) Hd') as (Htok' & l2 & He2 & Hf2).
    cbn [run fold_left]. fold (run applyEdit (step applyEdit w ev) evs).
    split; [congruence|]. exists (l1 ++ l2). split.
    + now rewrite He2, He1, app_assoc.
    + now rewrite filter_app, Hf1, Hf2.
Qed.

(** C10. On a disposed colouring, processing a response releases the
    stored response (if one is left), releases the incoming result when
    there is one instead of storing it, and leaves the document's token
    store alone; whatever happens after disposal, [setSemanticTokens] is
    never called again.  Disposal leaves no stored response and no token
    source, so a second disposal changes nothing: no further cancellation,
    no further release. *)
Theorem disposal_is_final (w : World) (tokens : option SemanticColoring)
    (legend : SemanticColoringLegend) (pending : list IModelContentChangedEvent)
    (evs : list Event) :
  Inv w -> _isDisposed (coloring w) = true ->
  (let w' := _setSemanticTokens applyEdit w tokens legend pending in
   _currentResponse (coloring w') = None
   /\ semanticTokens w' = semanticTokens w
   /\ added w w'
      = match _currentResponse (coloring w) with Some r => [ERelease r] | None => [] end
        ++ match tokens with Some t => [ERelease t] | None => [] end)
  /\ (semanticTokens (run applyEdit w evs) = semanticTokens w
      /\ filter isSetSemanticTokens (added w (run applyEdit w evs)) = [])
  /\ (forall w0,
        let d := dispose w0 in
        _isDisposed (coloring d) = true
        /\ _currentResponse (coloring d) = None
        /\ _currentRequestCancellationTokenSource (coloring d) = None
        /\ dispose d = d
        /\ filter isCancelOrRelease (added d (dispose d)) = []).
Proof.
  intros HInv Hd. split; [|split].
  - open_world w. subst d. unfold _setSemanticTokens.
    destruct resp, tokens; compute_step; repeat split;
      first [ rewrite added_same by (compute_goal; reflexivity)
            | erewrite added_app by (compute_goal; rewrite <- ?app_assoc; reflexivity) ];
      reflexivity.
  - destruct (disposed_run w evs HInv Hd) as (Htok & l & He & Hf).
    split; [exact Htok|]. now rewrite (added_app _ _ _ He).
  - intros w0. cbv zeta. open_world w0.
    destruct resp, cts; compute_step; repeat split;
      rewrite added_same by (compute_goal; reflexivity); reflexivity.
Qed.

End ColoringClaims.

Section ColoringWitnesses.

Lemma at_most_one_in_flight_witness :
  let w := run keepArea (newColoring themeAll [sampleProvider])
               [TimerElapsed; ContentChanged prependX] in
  findRequest 0 (outstanding w) = Some (mkRequest 0 sampleProvider [prependX])
  /\ _fetchSemanticTokens
       (coloring (step keepArea w (RequestResolved 0 (Some sampleResponse)))) = true.
Proof.
  split; [reflexivity|].
  exact (proj1 (proj1 (proj2 (proj2
           (at_most_one_in_flight keepArea themeAll [sampleProvider]
              [TimerElapsed; ContentChanged prependX])))
           0 (mkRequest 0 sampleProvider [prependX]) sampleResponse
           eq_refl eq_refl ltac:(discriminate))).
Defined.

(** C2 as stated fails: a theme change arrives while request 0 is in
    progress, its debounce window elapses before the request completes
    (which starts nothing), and the request then completes with a token
    result: no run is pending and no call is in progress, so no follow-up
    cycle is scheduled. *)
Lemma follow_up_as_stated_fails : ~ follow_up_as_stated.
Proof.
  intro H.
  specialize (H keepArea themeAll [sampleProvider] [TimerElapsed] (ThemeChanged themeNone)
                [TimerElapsed] 0 (mkRequest 0 sampleProvider []) (Some sampleResponse)
                eq_refl eq_refl eq_refl eq_refl).
  discriminate H.
Qed.


Lemma disposal_is_final_witness :
  let w := run keepArea (newColoring themeAll [sampleProvider]) [TimerElapsed; Disposed] in
  _isDisposed (coloring w) = true
  /\ semanticTokens (step keepArea w (RequestResolved 0 (Some sampleResponse))) = None
  /\ added w (step keepArea w (RequestResolved 0 (Some sampleResponse)))
     = [ERelease sampleResponse].
Proof.
  split; [reflexivity|].
  pose proof (disposal_is_final keepArea
                (run keepArea (newColoring themeAll [sampleProvider])
                     [TimerElapsed; Disposed])
                (Some sampleResponse) sampleLegend []
                [RequestResolved 0 (Some sampleResponse)]
                (Inv_run keepArea _ _ (Inv_new _ _)) eq_refl) as H.
  cbv zeta in H. destruct H as (_ & [H1 _] & _).
  split; [|vm_compute; reflexivity].
  vm_compute. vm_compute in H1. exact H1.
Defined.

End ColoringWitnesses.

(* ================================================================== *)
(** * More on the scans of the diff engine *)
(* ================================================================== *)

Import Notions.

Section ScanFacts.

Variables a b : ILineSequence.
Variables aLen aDelta bLen bDelta : nat.

Lemma line_eqb_option (x y : Line) : line_eqb x y = true <-> Some x = Some y.
Proof. rewrite line_eqb_eq. split; congruence. Qed.

(** The prefix loop, for any two line sequences whose lines exist as far
    as the scan can go: started with [result = i] it stops at the first
    index where the lines differ, or at [maxResult]. *)
Lemma commonPrefix_loop_longest (mx : nat) :
  (forall i, i < mx -> a (aDelta + i) <> None /\ b (bDelta + i) <> None) ->
  forall fuel i,
    i <= mx -> mx - i <= fuel ->
    exists r,
      commonPrefix_loop a aDelta b bDelta mx fuel i i = Some r
      /\ i <= r <= mx
      /\ (forall j, i <= j < r -> a (aDelta + j) = b (bDelta + j))
      /\ (r < mx -> a (aDelta + r) <> b (bDelta + r)).
Proof.
  intros Hdef. induction fuel as [|fuel IH]; intros i Hi Hf; cbn [commonPrefix_loop].
  - assert (i = mx) as -> by lia. rewrite Nat.ltb_irrefl.
    exists mx. repeat split; lia.
  - destruct (i <? mx) eqn:Hlt.
    + apply Nat.ltb_lt in Hlt. destruct (Hdef i Hlt) as [Ha Hb].
      destruct (a (aDelta + i)) as [la|] eqn:Ea; [|congruence].
      destruct (b (bDelta + i)) as [lb|] eqn:Eb; [|congruence].
      destruct (line_eqb la lb) eqn:Eeq.
      * apply line_eqb_eq in Eeq. subst lb.
        destruct (IH (S i)) as (r & Hr & Hrange & Hsame & Hdiff); try lia.
        exists r. split; [exact Hr|]. split; [lia|]. split; [|exact Hdiff].
        intros j Hj. destruct (Nat.eq_dec j i) as [->|Hne]; [congruence|].
        apply Hsame. lia.
      * exists i. split; [reflexivity|]. split; [lia|]. split; [intros j Hj; lia|].
        intros _ Heq. rewrite Ea, Eb in Heq. injection Heq as ->.
        rewrite line_eqb_refl in Eeq. discriminate.
    + apply Nat.ltb_ge in Hlt. assert (i = mx) as -> by lia.
      exists mx. repeat split; lia.
Qed.

Lemma commonSuffix_loop_longest (mx : nat) :
  (forall i, i < mx -> a (aDelta + aLen - i) <> None /\ b (bDelta + bLen - i) <> None) ->
  forall fuel i,
    i <= mx -> mx - i <= fuel ->
    exists r,
      commonSuffix_loop a aLen aDelta b bLen bDelta mx fuel i i = Some r
      /\ i <= r <= mx
      /\ (forall j, i <= j < r -> a (aDelta + aLen - j) = b (bDelta + bLen - j))
      /\ (r < mx -> a (aDelta + aLen - r) <> b (bDelta + bLen - r)).
Proof.
  intros Hdef. induction fuel as [|fuel IH]; intros i Hi Hf; cbn [commonSuffix_loop].
  - assert (i = mx) as -> by lia. rewrite Nat.ltb_irrefl.
    exists mx. repeat split; lia.
  - destruct (i <? mx) eqn:Hlt.
    + apply Nat.ltb_lt in Hlt. destruct (Hdef i Hlt) as [Ha Hb].
      destruct (a (aDelta + aLen - i)) as [la|] eqn:Ea; [|congruence].
      destruct (b (bDelta + bLen - i)) as [lb|] eqn:Eb; [|congruence].
      destruct (line_eqb la lb) eqn:Eeq.
      * apply line_eqb_eq in Eeq. subst lb.
        destruct (IH (S i)) as (r & Hr & Hrange & Hsame & Hdiff); try lia.
        exists r. split; [exact Hr|]. split; [lia|]. split; [|exact Hdiff].
        intros j Hj. destruct (Nat.eq_dec j i) as [->|Hne]; [congruence|].
        apply Hsame. lia.
      * exists i. split; [reflexivity|]. split; [lia|]. split; [intros j Hj; lia|].
        intros _ Heq. rewrite Ea, Eb in Heq. injection Heq as ->.
        rewrite line_eqb_refl in Eeq. discriminate.
    + apply Nat.ltb_ge in Hlt. assert (i = mx) as -> by lia.
      exists mx. repeat split; lia.
Qed.

(** The first line the scan cannot read makes the call throw. *)
Lemma commonPrefix_loop_throws (mx fuel i r k : nat) :
  i <= k -> k < mx -> k - i < fuel ->
  (forall j, i <= j < k -> exists l, a (aDelta + j) = Some l /\ b (bDelta + j) = Some l) ->
  a (aDelta + k) = None \/ (a (aDelta + k) <> None /\ b (bDelta + k) = None) ->
  commonPrefix_loop a aDelta b bDelta mx fuel i r = None.
Proof.
  revert i r. induction fuel as [|fuel IH]; intros i r Hik Hk Hf Hsame Hnone; [lia|].
  cbn [commonPrefix_loop].
  assert ((i <? mx) = true) as -> by (apply Nat.ltb_lt; lia).
  destruct (Nat.eq_dec i k) as [->|Hne].
  - destruct Hnone as [->|[Ha ->]]; [reflexivity|].
    now destruct (a (aDelta + k)).
  - destruct (Hsame i ltac:(lia)) as (l & -> & ->). rewrite line_eqb_refl.
    apply IH; try lia; [|exact Hnone].
    intros j Hj. apply Hsame. lia.
Qed.

End ScanFacts.

Section ScanTheorems.

(** X1. [_commonPrefix] returns the length of the longest common prefix of
    the two windows: for any line sequences whose lines exist throughout
    the windows ([aDelta + i] and [bDelta + i] for [i < min aLen bLen]) the
    result [r] is at most [min aLen bLen], the first [r] lines of the
    windows are pairwise equal, and unless [r] is that minimum the lines
    with index [r] differ. *)
Theorem commonPrefix_longest (a b : ILineSequence) (aLen aDelta bLen bDelta : nat) :
  (forall i, i < Nat.min aLen bLen ->
             a (aDelta + i) <> None /\ b (bDelta + i) <> None) ->
  exists r,
    _commonPrefix a aLen aDelta b bLen bDelta = Some r
    /\ r <= Nat.min aLen bLen
    /\ (forall j, j < r -> a (aDelta + j) = b (bDelta + j))
    /\ (r < Nat.min aLen bLen -> a (aDelta + r) <> b (bDelta + r)).
Proof.
  intro Hdef. unfold _commonPrefix. cbv zeta.
  destruct (commonPrefix_loop_longest a b aDelta bDelta (Nat.min aLen bLen) Hdef
              (Nat.min aLen bLen) 0) as (r & Hr & Hrange & Hsame & Hdiff); try lia.
  exists r. split; [exact Hr|]. split; [lia|]. split; [|exact Hdiff].
  intros j Hj. apply Hsame. lia.
Qed.

Lemma commonPrefix_longest_witness :
  exists r,
    _commonPrefix (getLineContent buf_abx) 3 1 (getLineContent buf_axyc) 4 1 = Some r
    /\ r <= 3.
Proof.
  destruct (commonPrefix_longest (getLineContent buf_abx) (getLineContent buf_axyc) 3 1 4 1)
    as (r & Hr & Hle & _).
  - intros i Hi. simpl in Hi.
    destruct i as [|[|[|i]]]; [split; discriminate ..|lia].
  - exists r. split; [exact Hr|exact Hle].
Defined.

(** X2. [_commonSuffix] returns the length of the longest common suffix of
    the two windows, which it reads backwards from [aDelta + aLen] and
    [bDelta + bLen]: the result [r] is at most [min aLen bLen], the last
    [r] lines of the windows are pairwise equal, and unless [r] is that
    minimum the lines [r] places before the end differ. *)
Theorem commonSuffix_longest (a b : ILineSequence) (aLen aDelta bLen bDelta : nat) :
  (forall i, i < Nat.min aLen bLen ->
             a (aDelta + aLen - i) <> None /\ b (bDelta + bLen - i) <> None) ->
  exists r,
    _commonSuffix a aLen aDelta b bLen bDelta = Some r
    /\ r <= Nat.min aLen bLen
    /\ (forall j, j < r -> a (aDelta + aLen - j) = b (bDelta + bLen - j))
    /\ (r < Nat.min aLen bLen -> a (aDelta + aLen - r) <> b (bDelta + bLen - r)).
Proof.
  intro Hdef. unfold _commonSuffix. cbv zeta.
  destruct (commonSuffix_loop_longest a b aLen aDelta bLen bDelta (Nat.min aLen bLen) Hdef
              (Nat.min aLen bLen) 0) as (r & Hr & Hrange & Hsame & Hdiff); try lia.
  exists r. split; [exact Hr|]. split; [lia|]. split; [|exact Hdiff].
  intros j Hj. apply Hsame. lia.
Qed.

Lemma commonSuffix_longest_witness :
  exists r,
    _commonSuffix (getLineContent buf_abx) 3 0 (getLineContent buf_axyc) 4 0 = Some r
    /\ r <= 3.
Proof.
  destruct (commonSuffix_longest (getLineContent buf_abx) (getLineContent buf_axyc) 3 0 4 0)
    as (r & Hr & Hle & _).
  - intros i Hi. simpl in Hi.
    destruct i as [|[|[|i]]]; [split; discriminate ..|lia].
  - exists r. split; [exact Hr|exact Hle].
Defined.

End ScanTheorems.

Section ComputeEditsFacts.

(** X3. A scan that runs into a line that does not exist throws: if the
    lines of both windows exist and agree before index [k], [k] is inside
    both windows, and line [aDelta + k] or [bDelta + k] cannot be read,
    then [_commonPrefix] fails instead of returning a shorter result. *)
Theorem commonPrefix_throws (a b : ILineSequence) (aLen aDelta bLen bDelta k : nat) :
  k < Nat.min aLen bLen ->
  (forall j, j < k -> exists l, a (aDelta + j) = Some l /\ b (bDelta + j) = Some l) ->
  a (aDelta + k) = None \/ b (bDelta + k) = None ->
  _commonPrefix a aLen aDelta b bLen bDelta = None.
Proof.
  intros Hk Hsame Hnone. unfold _commonPrefix. cbv zeta.
  apply (commonPrefix_loop_throws a b aDelta bDelta _ _ 0 0 k); try lia.
  - intros j Hj. apply Hsame. lia.
  - destruct (a (aDelta + k)) eqn:Ea; [|now left].
    right. split; [discriminate|]. destruct Hnone; [discriminate|assumption].
Qed.

Lemma commonPrefix_throws_witness :
  _commonPrefix (getLineContent buf_abx) 4 1 (getLineContent buf_abx) 4 1 = None.
Proof.
  apply (commonPrefix_throws (getLineContent buf_abx) (getLineContent buf_abx) 4 1 4 1 3).
  - simpl. lia.
  - intros j Hj. destruct j as [|[|[|j]]]; [eexists; split; reflexivity ..|lia].
  - left. reflexivity.
Defined.

Lemma model_lines_exist (m : TextModel) (n : nat) :
  1 <= n <= model_getLineCount m -> model_getLineContent m n <> None.
Proof.
  unfold model_getLineCount, model_getLineContent, getLineCount, getLineContent.
  intros Hn. destruct n as [|n]; [lia|]. simpl. rewrite Nat.sub_0_r.
  apply nth_error_Some. lia.
Qed.

Lemma buffer_lines_exist (b : TextBuffer) (n : nat) :
  1 <= n <= getLineCount b -> getLineContent b n <> None.
Proof. exact (model_lines_exist (documentOf b) n). Qed.

(** X4. The two scans of [_computeEdits] never overlap and never read
    outside the two sequences: they succeed with a prefix [p] and a suffix
    [s] such that [p + s] is at most the smaller line count, the first [p]
    lines are pairwise equal, and the last [s] lines are pairwise equal. *)
Theorem scans_do_not_overlap (m : TextModel) (tb : TextBuffer) :
  exists p s,
    _commonPrefix (model_getLineContent m) (model_getLineCount m) 1
                  (getLineContent tb) (getLineCount tb) 1 = Some p
    /\ _commonSuffix (model_getLineContent m) (model_getLineCount m - p) p
                     (getLineContent tb) (getLineCount tb - p) p = Some s
    /\ p + s <= Nat.min (model_getLineCount m) (getLineCount tb)
    /\ (forall n, 1 <= n <= p -> model_getLineContent m n = getLineContent tb n)
    /\ (forall k, k < s ->
          model_getLineContent m (model_getLineCount m - k)
          = getLineContent tb (getLineCount tb - k)).
Proof.
  set (la := model_getLineCount m). set (lb := getLineCount tb).
  destruct (commonPrefix_loop_longest (model_getLineContent m) (getLineContent tb) 1 1
              (Nat.min la lb)) with (fuel := Nat.min la lb) (i := 0)
    as (p & Hp & Hprange & Hpsame & _); try lia.
  { intros i Hi. split; [apply model_lines_exist|apply buffer_lines_exist];
      fold la; fold lb; lia. }
  destruct (commonSuffix_loop_longest (model_getLineContent m) (getLineContent tb)
              (la - p) p (lb - p) p (Nat.min (la - p) (lb - p)))
    with (fuel := Nat.min (la - p) (lb - p)) (i := 0)
    as (s & Hs & Hsrange & Hssame & _); try lia.
  { intros i Hi. split; [apply model_lines_exist|apply buffer_lines_exist];
      fold la; fold lb; lia. }
  exists p, s. split; [exact Hp|]. split; [exact Hs|]. split; [lia|]. split.
  - intros n Hn. specialize (Hpsame (n - 1) ltac:(lia)).
    now replace (1 + (n - 1)) with n in Hpsame by lia.
  - intros k Hk. specialize (Hssame k ltac:(lia)).
    replace (p + (la - p) - k) with (la - k) in Hssame by lia.
    now replace (p + (lb - p) - k) with (lb - k) in Hssame by lia.
Qed.

Lemma commonPrefixLen_comm (a b : list Line) : commonPrefixLen a b = commonPrefixLen b a.
Proof.
  revert b. induction a as [|x a IH]; intros [|y b]; simpl; try reflexivity.
  destruct (line_eqb x y) eqn:E.
  - apply line_eqb_eq in E. subst y. now rewrite line_eqb_refl, IH.
  - destruct (line_eqb y x) eqn:E'; [|reflexivity].
    apply line_eqb_eq in E'. subst y. rewrite line_eqb_refl in E. discriminate.
Qed.

Lemma prefix_lines_equal (a b : list Line) (i : nat) :
  i < commonPrefixLen a b -> nth_error a i = nth_error b i.
Proof.
  intro Hi. pose proof (commonPrefixLen_firstn a b) as H.
  apply (f_equal (fun l => nth_error l i)) in H.
  rewrite !nth_error_firstn in H.
  now replace (i <? commonPrefixLen a b) with true in H
    by (symmetry; now apply Nat.ltb_lt).
Qed.

(** X5. Swapping the two sides swaps the two ranges: when
    [_computeEdits] on document [A] and staging buffer [B] replaces the old
    range [o] by the text of the new range [n], then on document [B] and
    staging buffer [A] it replaces [n] by the text of [o]. *)
Theorem computeRanges_mirror (m : TextModel) (tb : TextBuffer) (o n : Range) :
  computeRanges m tb = Some (Some (o, n)) ->
  computeRanges (documentOf tb) (buffer m) = Some (Some (n, o)).
Proof.
  rewrite !computeRanges_spec. cbv zeta.
  unfold documentOf, model_getLineMaxColumn, getLineMaxColumn, getLineLength.
  cbn [buffer].
  set (A := lines (buffer m)). set (B := lines tb).
  rewrite (commonPrefixLen_comm B A).
  set (p := commonPrefixLen A B).
  assert (Hs : commonSuffixLen p B A = commonSuffixLen p A B)
    by (unfold commonSuffixLen; apply commonPrefixLen_comm).
  rewrite Hs. set (s := commonSuffixLen p A B).
  assert (Hcond : (length B =? length A) && (p =? length B)
                  = (length A =? length B) && (p =? length A)).
  { rewrite (Nat.eqb_sym (length B) (length A)).
    destruct (length A =? length B) eqn:E; [|reflexivity].
    apply Nat.eqb_eq in E. now rewrite E. }
  rewrite Hcond.
  destruct ((length A =? length B) && (p =? length A)); [discriminate|].
  destruct (0 <? s).
  - intro H. injection H as <- <-. reflexivity.
  - destruct (0 <? p).
    + destruct (getLineContent (buffer m) p) as [l1|]; [|discriminate].
      destruct (getLineContent (buffer m) (length A)) as [l2|]; [|discriminate].
      destruct (getLineContent tb p) as [l3|]; [|discriminate].
      destruct (getLineContent tb (length B)) as [l4|]; [|discriminate].
      intro H. injection H as <- <-.
      rewrite ?Nat.add_1_r. reflexivity.
    + destruct (getLineContent (buffer m) (length A)) as [l2|]; [|discriminate].
      destruct (getLineContent tb (length B)) as [l4|]; [|discriminate].
      intro H. injection H as <- <-.
      rewrite ?Nat.add_1_r. reflexivity.
Qed.

Lemma computeRanges_mirror_witness :
  computeRanges doc_abc buf_axyc = Some (Some (mkRange 2 1 3 1, mkRange 2 1 4 1))
  /\ computeRanges (documentOf buf_axyc) (buffer doc_abc)
     = Some (Some (mkRange 2 1 4 1, mkRange 2 1 3 1)).
Proof.
  split; [reflexivity|].
  exact (computeRanges_mirror doc_abc buf_axyc _ _ eq_refl).
Defined.

End ComputeEditsFacts.

Section RangesAndReplacement.

Lemma computeRanges_some_differ (m : TextModel) (tb : TextBuffer) (o n : Range) :
  computeRanges m tb = Some (Some (o, n)) -> lines (buffer m) <> lines tb.
Proof.
  rewrite computeRanges_spec. cbv zeta. intros H Heq.
  apply equality_case_iff in Heq. rewrite Heq in H. discriminate.
Qed.

Lemma getLineContent_prefix (m : TextModel) (tb : TextBuffer) (k : nat) :
  1 <= k <= commonPrefixLen (lines (buffer m)) (lines tb) ->
  getLineContent (buffer m) k = getLineContent tb k.
Proof.
  intro Hk. destruct k as [|k]; [lia|]. rewrite !getLineContent_S.
  apply prefix_lines_equal. lia.
Qed.

(** X6. The ranges [_computeEdits] works with are always acceptable and
    start behind the common prefix: for well-formed sides, the old range is
    a valid range of the document and the new range a valid range of the
    staging buffer (ordered, on existing lines, columns within the lines),
    both start at the same position, and neither holds a character of the
    first [p] lines, [p] being the common prefix the scan found. *)
Theorem computed_ranges_valid (m : TextModel) (tb : TextBuffer) (p : nat) (o n : Range) :
  wf_model m -> wf_buffer tb ->
  _commonPrefix (model_getLineContent m) (model_getLineCount m) 1
                (getLineContent tb) (getLineCount tb) 1 = Some p ->
  computeRanges m tb = Some (Some (o, n)) ->
  validRange (buffer m) o = true
  /\ validRange tb n = true
  /\ startLineNumber o = startLineNumber n
  /\ startColumn o = startColumn n
  /\ (forall k, k <= p -> ~ range_covers_char (buffer m) o k)
  /\ (forall k, k <= p -> ~ range_covers_char tb n k).
Proof.
  intros Hm Hb Hp Hr.
  rewrite commonPrefix_correct in Hp. injection Hp as Hp.
  pose proof (computeRanges_some_differ m tb o n Hr) as Hne.
  destruct (computeEdits_differ m tb Hm Hb Hne) as (e & He & Happ).
  unfold _computeEdits in He. rewrite Hr in He.
  destruct (getValueInRange tb n TextDefined) as [t|] eqn:Ht; [|discriminate].
  injection He as <-.
  assert (Hvo : validRange (buffer m) o = true).
  { unfold applyEdit in Happ. cbn [range replaceMove] in Happ.
    destruct (validRange (buffer m) o); [reflexivity|discriminate]. }
  assert (Hvn : validRange tb n = true).
  { unfold getValueInRange, rangePieces in Ht.
    destruct (validRange tb n); [reflexivity|discriminate]. }
  split; [exact Hvo|]. split; [exact Hvn|].
  assert (Hline0 : forall (bf : TextBuffer), getLineContent bf 0 = None) by reflexivity.
  rewrite computeRanges_spec in Hr. cbv zeta in Hr. rewrite Hp in Hr.
  destruct ((length (lines (buffer m)) =? length (lines tb))
            && (p =? length (lines (buffer m)))); [discriminate|].
  destruct (0 <? commonSuffixLen p (lines (buffer m)) (lines tb)).
  - injection Hr as <- <-. cbn [startLineNumber startColumn].
    split; [reflexivity|]. split; [reflexivity|].
    split; intros k Hk (c & l & Hl & Hc & Hs & _); cbn in Hs;
      apply pos_leb_spec in Hs; lia.
  - destruct (0 <? p) eqn:Hp0.
    + apply Nat.ltb_lt in Hp0.
      unfold model_getLineMaxColumn, getLineMaxColumn, getLineLength in Hr.
      pose proof (getLineContent_prefix m tb p ltac:(lia)) as Hsame.
      destruct (getLineContent (buffer m) p) as [l1|] eqn:E1; [|discriminate].
      destruct (getLineContent (buffer m) (length (lines (buffer m)))) as [l2|];
        [|discriminate].
      rewrite <- Hsame in Hr.
      destruct (getLineContent tb (length (lines tb))) as [l4|]; [|discriminate].
      injection Hr as <- <-. cbn [startLineNumber startColumn].
      split; [reflexivity|]. split; [lia|].
      split; intros k Hk (c & l & Hl & Hc & Hs & _); cbn in Hs;
        apply pos_leb_spec in Hs;
        (destruct Hs as [Hs|[Hs1 Hs2]]; [lia|]); subst k;
        rewrite <- ?Hsame, ?E1 in Hl; injection Hl as <-; lia.
    + apply Nat.ltb_ge in Hp0. assert (p = 0) as -> by lia.
      unfold model_getLineMaxColumn, getLineMaxColumn, getLineLength in Hr.
      destruct (getLineContent (buffer m) (length (lines (buffer m)))) as [l2|];
        [|discriminate].
      destruct (getLineContent tb (length (lines tb))) as [l4|]; [|discriminate].
      injection Hr as <- <-. cbn [startLineNumber startColumn].
      split; [reflexivity|]. split; [reflexivity|].
      split; intros k Hk (c & l & Hl & _); assert (k = 0) as -> by lia;
        rewrite Hline0 in Hl; discriminate.
Qed.

Lemma computed_ranges_valid_witness :
  wf_model doc_abc /\ wf_buffer buf_axyc
  /\ validRange (buffer doc_abc) (mkRange 2 1 3 1) = true
  /\ validRange buf_axyc (mkRange 2 1 4 1) = true.
Proof.
  assert (H1 : wf_model doc_abc) by (split; [discriminate|reflexivity]).
  assert (H2 : wf_buffer buf_axyc) by (split; [discriminate|reflexivity]).
  split; [exact H1|]. split; [exact H2|].
  pose proof (computed_ranges_valid doc_abc buf_axyc 1 _ _ H1 H2 eq_refl eq_refl) as H.
  split; [exact (proj1 H)|exact (proj1 (proj2 H))].
Defined.




End RangesAndReplacement.

(* ================================================================== *)
(** * More on decoding *)
(* ================================================================== *)

Section DecodeAnyStream.

Variable legend : SemanticColoringLegend.
Variable theme : ThemeResolver.

Lemma store_length (dest : list Z) (k : nat) (v : Z) :
  length (store dest k v) = length dest.
Proof.
  unfold store. destruct (k <? length dest) eqn:E; [|reflexivity].
  apply Nat.ltb_lt in E.
  rewrite length_app. cbn [length]. rewrite length_firstn, length_skipn. lia.
Qed.

Lemma toUint32_range (v : Z) : isUint32 (toUint32 v).
Proof. unfold isUint32, toUint32. apply Z.mod_pos_bound. reflexivity. Qed.

Lemma Forall_take {A : Type} (P : A -> Prop) (n : nat) (l : list A) :
  Forall P l -> Forall P (firstn n l).
Proof.
  revert l. induction n as [|n IH]; intros [|x l] H; cbn [firstn]; try constructor;
    inversion H; subst; auto.
Qed.

Lemma Forall_drop {A : Type} (P : A -> Prop) (n : nat) (l : list A) :
  Forall P l -> Forall P (skipn n l).
Proof.
  revert l. induction n as [|n IH]; intros [|x l] H; cbn [skipn]; try assumption.
  inversion H; subst; auto.
Qed.

Lemma store_uint32 (dest : list Z) (k : nat) (v : Z) :
  Forall isUint32 dest -> Forall isUint32 (store dest k v).
Proof.
  intro H. unfold store. destruct (k <? length dest); [|exact H].
  apply Forall_app. split; [now apply Forall_take|].
  constructor; [apply toUint32_range|now apply Forall_drop].
Qed.

Lemma iterations_test (src : list Z) (i : nat) :
  (5 * i <? length src) = (i <? loopIterations src).
Proof.
  unfold loopIterations.
  pose proof (Nat.div_mod_eq (length src + 4) 5) as Hdm.
  pose proof (Nat.mod_upper_bound (length src + 4) 5 ltac:(lia)) as Hmod.
  destruct (5 * i <? length src) eqn:E1; destruct (i <? (length src + 4) / 5) eqn:E2;
    try reflexivity.
  - apply Nat.ltb_lt in E1. apply Nat.ltb_ge in E2. lia.
  - apply Nat.ltb_ge in E1. apply Nat.ltb_lt in E2. lia.
Qed.

(** One iteration keeps the allocated length and the 32-bit contents, and
    advances the offset by four exactly when the theme resolves a style. *)
Lemma decode_step_any (src : list Z) (i : nat) (dest : list Z) (off : nat) :
  Forall isUint32 dest ->
  let st' := decode_step legend theme src i (dest, off) in
  length (fst st') = length dest
  /\ Forall isUint32 (fst st')
  /\ snd st' = off + (if resolvedAt legend theme src i then 4 else 0).
Proof.
  intro Hu. unfold decode_step, resolvedAt. cbv zeta.
  destruct (theme (tokenTypeAt legend (nth_error src (5 * i + 3)))
                  (modifiers_loop (tokenModifiers legend) (nth_error src (5 * i + 4))))
    as [md|]; cbn [fst snd].
  - rewrite !store_length. split; [reflexivity|]. split; [|reflexivity].
    now repeat apply store_uint32.
  - split; [reflexivity|]. split; [exact Hu|lia].
Qed.

Lemma decode_loop_any (src : list Z) :
  forall fuel i dest off,
    length src <= 5 * i + fuel ->
    Forall isUint32 dest ->
    let st' := decode_loop legend theme src fuel i (dest, off) in
    length (fst st') = length dest
    /\ Forall isUint32 (fst st')
    /\ snd st' = off + 4 * length (filter (resolvedAt legend theme src)
                                          (seq i (loopIterations src - i))).
Proof.
  induction fuel as [|fuel IH]; intros i dest off Hfuel Hu; cbn [decode_loop].
  - assert (Hdone : (i <? loopIterations src) = false)
      by (rewrite <- iterations_test; apply Nat.ltb_ge; lia).
    apply Nat.ltb_ge in Hdone.
    replace (loopIterations src - i) with 0 by lia.
    cbn [fst snd seq filter length]. repeat split; [exact Hu|lia].
  - rewrite iterations_test. destruct (i <? loopIterations src) eqn:E.
    + apply Nat.ltb_lt in E.
      destruct (decode_step_any src i dest off Hu) as (H1 & H2 & H3).
      destruct (decode_step legend theme src i (dest, off)) as [dest1 off1].
      cbn [fst snd] in H1, H2, H3.
      destruct (IH (S i) dest1 off1 ltac:(lia) H2) as (H4 & H5 & H6).
      split; [congruence|]. split; [exact H5|].
      rewrite H6, H3.
      replace (loopIterations src - i) with (S (loopIterations src - S i)) by lia.
      cbn [seq filter].
      destruct (resolvedAt legend theme src i); cbn [length]; lia.
    + apply Nat.ltb_ge in E.
      replace (loopIterations src - i) with 0 by lia.
      cbn [fst snd seq filter length]. repeat split; [exact Hu|lia].
Qed.

Lemma Forall_repeat_zero (n : nat) : Forall isUint32 (repeat 0%Z n).
Proof.
  induction n as [|n IH]; constructor; [|exact IH].
  unfold isUint32. split; [lia|reflexivity].
Qed.

End DecodeAnyStream.

Section DecodeExtras.

(** X8. Whatever the source stream, complete or not, and whatever the
    theme returns: the decoded array never exceeds its allocation of
    [floor (4 * length / 5)] cells, holds four cells per tuple the theme
    resolved unless the allocation is shorter, and every cell is an unsigned
    32-bit value.  In particular a theme that resolves nothing, or an empty
    stream, gives the empty array. *)
Theorem decode_area_bounded (legend : SemanticColoringLegend) (theme : ThemeResolver)
    (area : SemanticColoringArea) :
  let out := mt_tokens (decode_area legend theme area) in
  length out = Nat.min (4 * resolvedCount legend theme (data area))
                       (4 * length (data area) / 5)
  /\ Forall isUint32 out
  /\ (resolvedCount legend theme (data area) = 0 -> out = [])
  /\ (data area = [] -> out = []).
Proof.
  cbv zeta. unfold decode_area.
  set (src := data area). set (cap := 4 * length src / 5).
  destruct (decode_loop_any legend theme src (length src) 0 (repeat 0%Z cap) 0
              ltac:(lia) (Forall_repeat_zero cap)) as (H1 & H2 & H3).
  destruct (decode_loop legend theme src (length src) 0 (repeat 0%Z cap, 0))
    as [dest off].
  cbn [fst snd] in H1, H2, H3. rewrite repeat_length in H1.
  rewrite Nat.sub_0_r in H3. fold (resolvedCount legend theme src) in H3.
  cbn [mt_tokens Nat.add] in *.
  assert (Hlen : length (if off =? length dest then dest else firstn off dest)
                 = Nat.min (4 * resolvedCount legend theme src) cap).
  { destruct (off =? length dest) eqn:E.
    - apply Nat.eqb_eq in E. lia.
    - rewrite length_firstn. lia. }
  assert (Hu : Forall isUint32 (if off =? length dest then dest else firstn off dest)).
  { destruct (off =? length dest); [exact H2|now apply Forall_take]. }
  split; [exact Hlen|]. split; [exact Hu|]. split.
  - intro H0. rewrite H0 in Hlen. simpl in Hlen.
    now destruct (if off =? length dest then dest else firstn off dest).
  - intro Hnil. fold src in Hnil.
    assert (Hcap : cap = 0) by (unfold cap; rewrite Hnil; reflexivity).
    rewrite Hcap, Nat.min_0_r in Hlen.
    now destruct (if off =? length dest then dest else firstn off dest).
Qed.

Lemma toUint32_id (v : Z) : isUint32 v -> toUint32 v = v.
Proof. intro H. unfold toUint32. apply Z.mod_small. exact H. Qed.

Lemma sourceTuple_fields (src : list Z) (n i : nat) :
  Forall isUint32 src -> length src = 5 * n -> i < n ->
  let '(a, b, c, _, _) := sourceTuple src i in
  isUint32 a /\ isUint32 b /\ isUint32 c.
Proof.
  intros Hu Hlen Hi. unfold sourceTuple.
  rewrite Forall_forall in Hu.
  repeat split; apply Hu; apply nth_In; lia.
Qed.

(** X9. Coordinates pass through decoding unchanged: for a stream of
    complete tuples whose fields are unsigned 32-bit values, the decoded
    array is, in source order, [(deltaLine, startCharacter, endCharacter)]
    of each tuple the theme resolves, exactly as stored in the source,
    followed by the tuple's metadata reduced to 32 bits. *)
Theorem decode_area_verbatim (legend : SemanticColoringLegend) (theme : ThemeResolver)
    (area : SemanticColoringArea) (n : nat) :
  length (data area) = 5 * n ->
  Forall isUint32 (data area) ->
  mt_tokens (decode_area legend theme area)
  = flat_map (emittedVerbatim legend theme) (sourceTuples (data area)).
Proof.
  intros Hlen Hu.
  rewrite (decode_area_complete legend theme area n Hlen). cbn [mt_tokens].
  unfold sourceTuples.
  assert (Hn : length (data area) / 5 = n)
    by (rewrite Hlen, Nat.mul_comm; now apply Nat.div_mul).
  rewrite Hn.
  assert (H : forall i, In i (seq 0 n) ->
            emitted legend theme (sourceTuple (data area) i)
            = emittedVerbatim legend theme (sourceTuple (data area) i)).
  { intros i Hi. apply in_seq in Hi.
    pose proof (sourceTuple_fields (data area) n i Hu Hlen ltac:(lia)) as Hf.
    unfold emitted, emittedVerbatim.
    destruct (sourceTuple (data area) i) as [[[[a b] c] d] e].
    destruct Hf as (Ha & Hb & Hc).
    destruct (resolveStyle legend theme (a, b, c, d, e)); [|reflexivity].
    now rewrite !toUint32_id by assumption. }
  induction (seq 0 n) as [|i l IH]; [reflexivity|].
  cbn [map flat_map]. rewrite H by now left.
  f_equal. apply IH. intros j Hj. apply H. now right.
Qed.

Lemma decode_area_verbatim_witness :
  Forall isUint32 (data (mkArea 1 [0; 0; 5; 0; 1]%Z))
  /\ mt_tokens (decode_area sampleLegend themeAll (mkArea 1 [0; 0; 5; 0; 1]%Z))
     = [0; 0; 5; 77]%Z.
Proof.
  assert (H : Forall isUint32 (data (mkArea 1 [0; 0; 5; 0; 1]%Z))).
  { cbn [data]. repeat constructor; unfold isUint32; simpl; lia || (intro; discriminate). }
  split; [exact H|].
  exact (eq_trans
           (decode_area_verbatim sampleLegend themeAll (mkArea 1 [0; 0; 5; 0; 1]%Z) 1
              eq_refl H)
           eq_refl).
Defined.

End DecodeExtras.

Section ModifierExtras.
Local Open Scope Z_scope.

Lemma selectBits_shift (names : list string) (bits : Z) (start : nat) :
  selectBits names (Z.shiftr bits (Z.of_nat start))
  = map snd (filter (fun p => Z.testbit bits (Z.of_nat (fst p)))
                    (combine (seq start (length names)) names)).
Proof.
  revert start. induction names as [|name rest IH]; intro start; [reflexivity|].
  cbn [selectBits length seq combine filter fst].
  rewrite Z.shiftr_spec by lia. rewrite Z.add_0_l.
  rewrite Z.shiftr_shiftr by lia.
  replace (Z.of_nat start + 1) with (Z.of_nat (S start)) by lia.
  rewrite IH.
  now destruct (Z.testbit bits (Z.of_nat start)).
Qed.

Lemma toInt32_mod (z : Z) : toInt32 z mod 2 ^ 32 = z mod 2 ^ 32.
Proof.
  unfold toInt32. cbv zeta. destruct (z mod 2 ^ 32 <? 2 ^ 31).
  - apply Z.mod_mod. lia.
  - replace (z mod 2 ^ 32 - 2 ^ 32) with (z mod 2 ^ 32 + (-1) * 2 ^ 32) by lia.
    rewrite Z.mod_add by lia. apply Z.mod_mod. lia.
Qed.

(** The low 32 bits of the signed reading are the bits of the set. *)
Lemma toInt32_low_bits (z : Z) (k : nat) :
  (k < 32)%nat -> Z.testbit (toInt32 z) (Z.of_nat k) = Z.testbit z (Z.of_nat k).
Proof.
  intro Hk.
  rewrite <- (Z.mod_pow2_bits_low (toInt32 z) 32) by lia.
  rewrite <- (Z.mod_pow2_bits_low z 32 (Z.of_nat k)) by lia.
  now rewrite toInt32_mod.
Qed.

(** X10. For a legend of at most 32 modifiers the modifier loop returns
    exactly the modifiers whose index is a set bit of the stored set, each
    once and in legend order; bits at or behind the end of the legend are
    ignored. *)
Theorem modifiers_follow_bits (names : list string) (set : Z) :
  (length names <= 32)%nat ->
  modifiers_loop names (Some set) = selectedByBits names set.
Proof.
  intro Hlen.
  rewrite modifiers_loop_selectBits.
  pose proof (selectBits_shift names (toInt32 set) 0) as H.
  change (Z.of_nat 0) with 0 in H. rewrite Z.shiftr_0_r in H. rewrite H.
  unfold selectedByBits. f_equal. apply filter_ext_in.
  intros [k name] Hin. cbn [fst].
  apply in_combine_l in Hin. apply in_seq in Hin.
  apply toInt32_low_bits. lia.
Qed.

Lemma modifiers_follow_bits_witness :
  (length ["a"; "b"; "c"]%string <= 32)%nat
  /\ modifiers_loop ["a"; "b"; "c"]%string (Some 13) = ["a"; "c"]%string.
Proof.
  split; [simpl; lia|].
  exact (eq_trans (modifiers_follow_bits ["a"; "b"; "c"]%string 13 ltac:(simpl; lia))
                  eq_refl).
Defined.

Lemma negative_high_bits (x : Z) (k : Z) :
  - 2 ^ 31 <= x < 0 -> 31 <= k -> Z.testbit x k = true.
Proof.
  intros Hx Hk. apply Z.bits_above_log2_neg; [lia|].
  destruct (Z.eq_dec (Z.pred (- x)) 0) as [->|Hne]; [simpl; lia|].
  apply Z.lt_le_trans with 31; [|exact Hk].
  apply Z.log2_lt_pow2; lia.
Qed.

(** X11. The shift of the modifier loop is signed: when bit 31 of the
    stored set is set, every modifier of the legend with index 31 or more
    is selected, also those with index 32 and beyond, for which the 32-bit
    set has no bit. *)
Theorem modifiers_sign_extension (names : list string) (set : Z) (k : nat) (name : string) :
  2 ^ 31 <= set < 2 ^ 32 ->
  (31 <= k)%nat -> nth_error names k = Some name ->
  In name (modifiers_loop names (Some set)).
Proof.
  intros Hset Hk Hname.
  rewrite modifiers_loop_selectBits. apply selectBits_In.
  exists k. split; [exact Hname|].
  apply negative_high_bits; [|lia].
  unfold toInt32. cbv zeta. rewrite Z.mod_small by lia.
  destruct (set <? 2 ^ 31) eqn:E; [apply Z.ltb_lt in E; lia|lia].
Qed.

Lemma modifiers_sign_extension_witness :
  In "m32"%string
     (modifiers_loop (repeat "m"%string 32 ++ ["m32"%string]) (Some (2 ^ 31))).
Proof.
  apply (modifiers_sign_extension _ (2 ^ 31) 32 "m32"%string).
  - split; [apply Z.le_refl|reflexivity].
  - apply Nat.leb_le. reflexivity.
  - reflexivity.
Defined.

End ModifierExtras.

(* ================================================================== *)
(** * More on the colouring *)
(* ================================================================== *)

Section ColoringExtras.

Variable applyEdit : ApplyEdit.


Lemma step_keeps_request (w : World) (ev : Event) (r : Request) :
  Inv w -> outstanding w = [r] -> isCompletion ev = false ->
  outstanding (step applyEdit w ev)
  = [mkRequest (requestId r) (requestProvider r)
               (pendingChanges r ++ contentChangesOf [ev])].
Proof.
  intros (Hlen & Hcts & Hdisp) Hout Hev.
  assert (Hr : r = mkRequest (requestId r) (requestProvider r) (pendingChanges r ++ []))
    by (destruct r; cbn; now rewrite app_nil_r).
  open_world w. subst out.
  destruct ev as [e|ps'|t| |id res|id err|]; try discriminate; cbn [contentChangesOf flat_map app].
  - destruct lst; compute_step; reflexivity.
  - destruct lst; compute_step; now rewrite <- Hr.
  - destruct lst; compute_step; now rewrite <- Hr.
  - rewrite <- Hr. destruct armed; compute_step; [|reflexivity].
    destruct d; [destruct (Hdisp eq_refl); discriminate|].
    destruct cts as [s|]; compute_step; [reflexivity|].
    exfalso. apply (Hcts eq_refl); [discriminate|reflexivity].
  - rewrite <- Hr. destruct resp, cts; compute_step; reflexivity.
Qed.

(** X12. The content changes that happen while a provider call is in
    progress are all recorded for it, once each and in the order they
    happen, whatever else happens meanwhile (other triggers, elapsed debounce
    windows, disposal): after any events that do not complete the call, the
    call is still the only one in progress and its pending list has grown
    by exactly the content changes among the events. *)
Theorem pending_changes_in_order (w : World) (r : Request) (evs : list Event) :
  Inv w -> outstanding w = [r] ->
  forallb (fun ev => negb (isCompletion ev)) evs = true ->
  outstanding (run applyEdit w evs)
  = [mkRequest (requestId r) (requestProvider r)
               (pendingChanges r ++ contentChangesOf evs)].
Proof.
  revert w r. induction evs as [|ev evs IH]; intros w r HInv Hout Hevs.
  - cbn. rewrite app_nil_r. rewrite Hout. now destruct r.
  - cbn [forallb] in Hevs. apply andb_true_iff in Hevs as [Hev Hrest].
    apply negb_true_iff in Hev.
    cbn [run fold_left]. fold (run applyEdit (step applyEdit w ev) evs).
    rewrite (IH (step applyEdit w ev) _ (Inv_step applyEdit w ev HInv)
                (step_keeps_request w ev r HInv Hout Hev) Hrest).
    cbn [requestId requestProvider pendingChanges].
    rewrite <- app_assoc. change (ev :: evs) with ([ev] ++ evs).
    unfold contentChangesOf. rewrite flat_map_app. reflexivity.
Qed.

Lemma setSemanticTokens_cancels_nothing (w : World) (tokens : option SemanticColoring)
    (legend : SemanticColoringLegend) (pending : list IModelContentChangedEvent) :
  filter isCancel (effects (_setSemanticTokens applyEdit w tokens legend pending))
  = filter isCancel (effects w).
Proof.
  open_world w. unfold _setSemanticTokens.
  destruct resp, d, tokens as [t|], pending; compute_step;
    rewrite ?filter_app; cbn [filter isCancel]; rewrite ?app_nil_r; reflexivity.
Qed.

Lemma TokenSourceInv_new (th : ThemeResolver) (ps : list SemanticColoringProvider) :
  TokenSourceInv (newColoring th ps).
Proof.
  unfold TokenSourceInv. cbn. repeat split; try discriminate. lia.
Qed.

Lemma TokenSourceInv_completion (w : World) (id : nat) (r : Request)
    (pre : list Effect) (tokens : option SemanticColoring) :
  Inv w -> TokenSourceInv w -> findRequest id (outstanding w) = Some r ->
  filter isCancel pre = [] ->
  TokenSourceInv
    (_setSemanticTokens applyEdit
       (setTokenSource
          (mkWorld (coloring w) (removeRequest id (outstanding w)) (semanticTokens w)
                   (theme w) (providers w) (nextRequest w) (effects w ++ pre))
          None)
       tokens (getLegend (requestProvider r)) (pendingChanges r)).
Proof.
  intros (Hlen & Hcts & Hdisp) (Hsrc & Hlive & Hdead & Hone) Hfind Hpre.
  destruct (findRequest_single _ _ _ Hlen Hfind) as [Hout Hrem].
  rewrite Hrem.
  match goal with |- TokenSourceInv (_setSemanticTokens applyEdit ?w0 ?t ?l ?p) =>
    destruct (setSemanticTokens_frame applyEdit w0 t l p) as (H1 & H2 & H3 & H4 & H5);
    pose proof (setSemanticTokens_cancels_nothing w0 t l p) as H6 end.
  unfold TokenSourceInv. rewrite H1, H2, H3, H6.
  open_world w. compute_goal. rewrite filter_app, Hpre, app_nil_r.
  repeat split; try assumption; try discriminate.
Qed.

Lemma TokenSourceInv_step (w : World) (ev : Event) :
  Inv w -> TokenSourceInv w -> TokenSourceInv (step applyEdit w ev).
Proof.
  intros HInv HT.
  pose proof HInv as (Hlen & Hcts & Hdisp). pose proof HT as (Hsrc & Hlive & Hdead & Hone).
  destruct ev as [e|ps'|t| |id res|id err|].
  - open_world w. unfold TokenSourceInv.
    destruct lst; compute_step; rewrite ?filter_app; cbn [filter isCancel];
      rewrite ?app_nil_r; (split; [|now repeat split]);
      intros id Hid; destruct (Hsrc id Hid) as (r & -> & Hr); exists (pushChange e r);
      now split.
  - open_world w. unfold TokenSourceInv.
    destruct lst; compute_step; rewrite ?filter_app; cbn [filter isCancel];
      rewrite ?app_nil_r; now repeat split.
  - open_world w. unfold TokenSourceInv.
    destruct lst; compute_step; rewrite ?filter_app; cbn [filter isCancel];
      rewrite ?app_nil_r; now repeat split.
  - open_world w. unfold TokenSourceInv. destruct armed; compute_step; [|exact HT].
    destruct d; [destruct (Hdisp eq_refl); discriminate|].
    destruct cts as [s|]; compute_step; [exact HT|].
    destruct ps as [|p ps]; compute_step; [exact HT|].
    assert (out = []) as ->.
    { destruct out; [reflexivity|]. exfalso. apply (Hcts eq_refl); [discriminate|reflexivity]. }
    rewrite filter_app. cbn [filter isCancel app]. rewrite app_nil_r.
    repeat split; try assumption; try discriminate.
    intros id Hid. injection Hid as <-. eexists. split; reflexivity.
  - cbn [step]. destruct (findRequest id (outstanding w)) as [r|] eqn:Hfind; [|exact HT].
    pose proof (TokenSourceInv_completion w id r [] res HInv HT Hfind eq_refl) as H.
    rewrite app_nil_r in H. exact H.
  - cbn [step]. destruct (findRequest id (outstanding w)) as [r|] eqn:Hfind; [|exact HT].
    exact (TokenSourceInv_completion w id r [EUnexpectedError err] None HInv HT Hfind eq_refl).
  - open_world w. unfold TokenSourceInv.
    destruct d.
    + rewrite (Hdead eq_refl) in *. destruct resp; compute_step;
        rewrite ?filter_app; cbn [filter isCancel]; rewrite ?app_nil_r;
        repeat split; try assumption; try discriminate.
    + rewrite (Hlive eq_refl) in *.
      destruct resp, cts; compute_step;
        rewrite ?filter_app; cbn [filter isCancel app length]; rewrite ?Hlive by reflexivity;
        cbn [app length];
        repeat split; try discriminate; try lia.
Qed.

Lemma TokenSourceInv_run (w : World) (evs : list Event) :
  Inv w -> TokenSourceInv w -> TokenSourceInv (run applyEdit w evs).
Proof.
  revert w. induction evs as [|ev evs IH]; intros w HI HT; [exact HT|].
  cbn [run fold_left]. apply IH; [now apply Inv_step|now apply TokenSourceInv_step].
Qed.

Lemma step_cancels (w : World) (ev : Event) :
  filter isCancel (added w (step applyEdit w ev))
  = match ev, _currentRequestCancellationTokenSource (coloring w) with
    | Disposed, Some id => [ECancel id]
    | _, _ => []
    end.
Proof.
  open_world w.
  destruct ev as [e|ps'|t| |id res|id err|].
  - destruct lst; compute_step;
      first [ rewrite added_same by (compute_goal; reflexivity)
            | erewrite added_app by (compute_goal; rewrite <- ?app_assoc; reflexivity) ];
      reflexivity.
  - destruct lst; compute_step;
      first [ rewrite added_same by (compute_goal; reflexivity)
            | erewrite added_app by (compute_goal; rewrite <- ?app_assoc; reflexivity) ];
      reflexivity.
  - destruct lst; compute_step;
      first [ rewrite added_same by (compute_goal; reflexivity)
            | erewrite added_app by (compute_goal; rewrite <- ?app_assoc; reflexivity) ];
      reflexivity.
  - destruct armed, cts, ps; compute_step;
      first [ rewrite added_same by (compute_goal; reflexivity)
            | erewrite added_app by (compute_goal; rewrite <- ?app_assoc; reflexivity) ];
      reflexivity.
  - compute_step. destruct (findRequest id out) as [r|]; compute_step.
    + unfold _setSemanticTokens.
      destruct resp, d, res, (pendingChanges r); compute_step;
        first [ rewrite added_same by (compute_goal; reflexivity)
              | erewrite added_app by (compute_goal; rewrite <- ?app_assoc; reflexivity) ];
        reflexivity.
    + rewrite added_same by reflexivity. reflexivity.
  - compute_step. destruct (findRequest id out) as [r|]; compute_step.
    + unfold _setSemanticTokens.
      destruct resp, d, (pendingChanges r); compute_step;
        first [ rewrite added_same by (compute_goal; reflexivity)
              | erewrite added_app by (compute_goal; rewrite <- ?app_assoc; reflexivity) ];
        reflexivity.
    + rewrite added_same by reflexivity. reflexivity.
  - destruct resp, cts; compute_step;
      first [ rewrite added_same by (compute_goal; reflexivity)
            | erewrite added_app by (compute_goal; rewrite <- ?app_assoc; reflexivity) ];
      reflexivity.
Qed.

(** X13. A provider call is cancelled only by disposal: an event cancels
    something exactly when it is the disposal of a colouring whose token
    source is set, and it then cancels that one source.  For every state a
    colouring can reach: a set token source names the one call in progress;
    nothing has been cancelled while the colouring is live; and over its
    whole life at most one cancellation happens. *)
Theorem cancel_only_at_disposal (th : ThemeResolver) (ps : list SemanticColoringProvider)
    (evs : list Event) :
  let w := run applyEdit (newColoring th ps) evs in
  (forall ev,
     filter isCancel (added w (step applyEdit w ev))
     = match ev, _currentRequestCancellationTokenSource (coloring w) with
       | Disposed, Some id => [ECancel id]
       | _, _ => []
       end)
  /\ (forall id, _currentRequestCancellationTokenSource (coloring w) = Some id ->
                 exists r, outstanding w = [r] /\ requestId r = id)
  /\ (_isDisposed (coloring w) = false -> filter isCancel (effects w) = [])
  /\ length (filter isCancel (effects w)) <= 1.
Proof.
  intro w.
  assert (HT : TokenSourceInv w)
    by (apply TokenSourceInv_run; [apply Inv_new|apply TokenSourceInv_new]).
  destruct HT as (Hsrc & Hlive & _ & Hone).
  split; [intro ev; apply step_cancels|]. now repeat split.
Qed.

Lemma setSemanticTokens_ownership (w : World) (tokens : option SemanticColoring)
    (legend : SemanticColoringLegend) (pending : list IModelContentChangedEvent) :
  let w' := _setSemanticTokens applyEdit w tokens legend pending in
  length (filter isRelease (effects w')) + storedResponses w'
  = length (filter isRelease (effects w)) + storedResponses w
    + match tokens with Some _ => 1 | None => 0 end
  /\ (_isDisposed (coloring w) = true -> storedResponses w' = 0).
Proof.
  open_world w. unfold _setSemanticTokens, storedResponses.
  destruct resp, d, tokens as [t|], pending; compute_step;
    rewrite ?filter_app, ?length_app; cbn [filter isRelease length];
    (split; [lia|intro; reflexivity || discriminate]).
Qed.

Lemma step_ownership (w : World) (ev : Event) :
  length (filter isRelease (effects (step applyEdit w ev))) + storedResponses (step applyEdit w ev)
  = length (filter isRelease (effects w)) + storedResponses w
    + (if deliversResult w ev then 1 else 0)
  /\ (_isDisposed (coloring w) = true -> storedResponses w = 0 ->
      storedResponses (step applyEdit w ev) = 0)
  /\ (_isDisposed (coloring w) = true -> _isDisposed (coloring (step applyEdit w ev)) = true).
Proof.
  destruct ev as [e|ps'|t| |id res|id err|].
  - open_world w. unfold storedResponses.
    destruct lst; compute_step; rewrite ?filter_app, ?length_app;
      cbn [filter isRelease length deliversResult]; repeat split; try lia; auto.
  - open_world w. unfold storedResponses.
    destruct lst; compute_step; rewrite ?filter_app, ?length_app;
      cbn [filter isRelease length deliversResult]; repeat split; try lia; auto.
  - open_world w. unfold storedResponses.
    destruct lst; compute_step; rewrite ?filter_app, ?length_app;
      cbn [filter isRelease length deliversResult]; repeat split; try lia; auto.
  - open_world w. unfold storedResponses.
    destruct armed, cts, ps; compute_step; rewrite ?filter_app, ?length_app;
      cbn [filter isRelease length deliversResult]; repeat split; try lia; auto.
  - cbn [step deliversResult].
    destruct (findRequest id (outstanding w)) as [r|].
    + match goal with |- context [_setSemanticTokens applyEdit ?w0 ?t ?l ?p] =>
        destruct (setSemanticTokens_ownership w0 t l p) as [H1 H2];
        destruct (setSemanticTokens_frame applyEdit w0 t l p) as (_ & H3 & _) end.
      rewrite H1, H3. open_world w. unfold storedResponses in *. compute_step.
      split; [destruct res; lia|]. split; [intros Hd _; now apply H2|auto].
    + split; [destruct res; lia|]. auto.
  - cbn [step deliversResult].
    destruct (findRequest id (outstanding w)) as [r|].
    + match goal with |- context [_setSemanticTokens applyEdit ?w0 ?t ?l ?p] =>
        destruct (setSemanticTokens_ownership w0 t l p) as [H1 H2];
        destruct (setSemanticTokens_frame applyEdit w0 t l p) as (_ & H3 & _) end.
      rewrite H1, H3. open_world w. unfold storedResponses in *. compute_step.
      rewrite ?filter_app, ?length_app. cbn [filter isRelease length].
      split; [lia|]. split; [intros Hd _; now apply H2|auto].
    + split; [lia|]. auto.
  - open_world w. unfold storedResponses.
    destruct resp, cts; compute_step; rewrite ?filter_app, ?length_app;
      cbn [filter isRelease length deliversResult]; repeat split; try lia; auto.
Qed.

Lemma run_ownership (w : World) (evs : list Event) :
  length (filter isRelease (effects (run applyEdit w evs))) + storedResponses (run applyEdit w evs)
  = length (filter isRelease (effects w)) + storedResponses w + deliveredResults applyEdit w evs.
Proof.
  revert w. induction evs as [|ev evs IH]; intro w.
  - cbn. lia.
  - cbn [run fold_left deliveredResults]. fold (run applyEdit (step applyEdit w ev) evs).
    rewrite IH. destruct (step_ownership w ev) as [H _]. lia.
Qed.

Lemma disposed_stores_nothing (w : World) (evs : list Event) :
  (_isDisposed (coloring w) = true -> storedResponses w = 0) ->
  _isDisposed (coloring (run applyEdit w evs)) = true -> storedResponses (run applyEdit w evs) = 0.
Proof.
  revert w. induction evs as [|ev evs IH]; intros w Hw; [exact Hw|].
  cbn [run fold_left]. apply IH. intro Hd.
  destruct (_isDisposed (coloring w)) eqn:Ed.
  - apply (proj1 (proj2 (step_ownership w ev))); [exact Ed|now apply Hw].
  - (* only disposal turns a live colouring into a disposed one *)
    clear IH Hw. open_world w. subst d. unfold storedResponses.
    destruct ev as [e|ps'|t| |id res|id err|].
    + destruct lst; compute_step; discriminate.
    + destruct lst; compute_step; discriminate.
    + destruct lst; compute_step; discriminate.
    + destruct armed, cts, ps; compute_step; discriminate.
    + cbn [step] in *. compute_step. destruct (findRequest id out) as [r|]; [|discriminate].
      match type of Hd with context [_setSemanticTokens applyEdit ?w0 ?t ?l ?p] =>
        destruct (setSemanticTokens_frame applyEdit w0 t l p) as (_ & H3 & _) end.
      rewrite H3 in Hd. discriminate.
    + cbn [step] in *. compute_step. destruct (findRequest id out) as [r|]; [|discriminate].
      match type of Hd with context [_setSemanticTokens applyEdit ?w0 ?t ?l ?p] =>
        destruct (setSemanticTokens_frame applyEdit w0 t l p) as (_ & H3 & _) end.
      rewrite H3 in Hd. discriminate.
    + destruct resp, cts; compute_step; reflexivity.
Qed.

(** X14. No token result is lost or released twice.  Over any run of
    events, the number of responses released so far plus the number held
    (one or none) equals the number of token results the provider calls
    handed over.  Once the colouring is disposed it holds none, so every
    result handed over, before or after disposal, has been released. *)
Theorem responses_released_or_held (th : ThemeResolver)
    (ps : list SemanticColoringProvider) (evs : list Event) :
  let w := run applyEdit (newColoring th ps) evs in
  length (filter isRelease (effects w)) + storedResponses w
  = deliveredResults applyEdit (newColoring th ps) evs
  /\ (_isDisposed (coloring w) = true ->
      _currentResponse (coloring w) = None
      /\ length (filter isRelease (effects w))
         = deliveredResults applyEdit (newColoring th ps) evs).
Proof.
  intro w. pose proof (run_ownership (newColoring th ps) evs) as H.
  fold w in H. cbn in H. split; [exact H|].
  intro Hd.
  assert (Hs : storedResponses w = 0)
    by (apply disposed_stores_nothing; [discriminate|exact Hd]).
  split; [|lia].
  unfold storedResponses in Hs. destruct (_currentResponse (coloring w)); [discriminate|reflexivity].
Qed.

(** X15. The document's token store is written exactly when a provider
    call in progress completes (with a result, without one, or by
    rejection) on a live colouring: that event calls [setSemanticTokens]
    once, with the value the store holds afterwards.  Every other event,
    and every event on a disposed colouring, neither calls it nor changes
    the store. *)
Theorem token_store_written_on_completion (w : World) (ev : Event) :
  filter isSetSemanticTokens (added w (step applyEdit w ev))
  = (if completes w ev && negb (_isDisposed (coloring w))
     then [ESetSemanticTokens (semanticTokens (step applyEdit w ev))]
     else [])
  /\ (completes w ev && negb (_isDisposed (coloring w)) = false ->
      semanticTokens (step applyEdit w ev) = semanticTokens w).
Proof.
  open_world w. unfold completes.
  destruct ev as [e|ps'|t| |id res|id err|]; cbn [andb].
  - destruct lst; compute_step;
      first [ rewrite added_same by (compute_goal; reflexivity)
            | erewrite added_app by (compute_goal; rewrite <- ?app_assoc; reflexivity) ];
      split; reflexivity.
  - destruct lst; compute_step;
      first [ rewrite added_same by (compute_goal; reflexivity)
            | erewrite added_app by (compute_goal; rewrite <- ?app_assoc; reflexivity) ];
      split; reflexivity.
  - destruct lst; compute_step;
      first [ rewrite added_same by (compute_goal; reflexivity)
            | erewrite added_app by (compute_goal; rewrite <- ?app_assoc; reflexivity) ];
      split; reflexivity.
  - destruct armed, cts, ps; compute_step;
      first [ rewrite added_same by (compute_goal; reflexivity)
            | erewrite added_app by (compute_goal; rewrite <- ?app_assoc; reflexivity) ];
      split; reflexivity.
  - compute_step. destruct (findRequest id out) as [r|]; compute_step; cbn [andb].
    + unfold _setSemanticTokens.
      destruct resp, d, res, (pendingChanges r); compute_step; cbn [negb];
        first [ rewrite added_same by (compute_goal; reflexivity)
              | erewrite added_app by (compute_goal; rewrite <- ?app_assoc; reflexivity) ];
        (split; [reflexivity|intro; reflexivity || discriminate]).
    + rewrite added_same by reflexivity. split; reflexivity.
  - compute_step. destruct (findRequest id out) as [r|]; compute_step; cbn [andb].
    + unfold _setSemanticTokens.
      destruct resp, d, (pendingChanges r); compute_step; cbn [negb];
        first [ rewrite added_same by (compute_goal; reflexivity)
              | erewrite added_app by (compute_goal; rewrite <- ?app_assoc; reflexivity) ];
        (split; [reflexivity|intro; reflexivity || discriminate]).
    + rewrite added_same by reflexivity. split; reflexivity.
  - destruct resp, cts; compute_step;
      first [ rewrite added_same by (compute_goal; reflexivity)
            | erewrite added_app by (compute_goal; rewrite <- ?app_assoc; reflexivity) ];
      split; reflexivity.
Qed.

Lemma quiet_step (w : World) (ev : Event) :
  Inv w -> _isDisposed (coloring w) = true ->
  _currentRequestCancellationTokenSource (coloring w) = None ->
  _isDisposed (coloring (step applyEdit w ev)) = true
  /\ _currentRequestCancellationTokenSource (coloring (step applyEdit w ev)) = None
  /\ length (outstanding (step applyEdit w ev)) <= length (outstanding w)
  /\ exists l, effects (step applyEdit w ev) = effects w ++ l /\ forallb isQuiet l = true.
Proof.
  intros (Hlen & Hcts & Hdisp) Hd Hsrc. destruct (Hdisp Hd) as [Harmed Hlst].
  open_world w. subst d armed lst cts.
  destruct ev as [e|ps'|t| |id res|id err|]; compute_step.
  - rewrite length_map. repeat split; [lia|]. exists []. now rewrite app_nil_r.
  - repeat split; [lia|]. exists []. now rewrite app_nil_r.
  - repeat split; [lia|]. exists []. now rewrite app_nil_r.
  - repeat split; [lia|]. exists []. now rewrite app_nil_r.
  - destruct (findRequest id out) as [r|] eqn:Hfind; compute_step;
      [|repeat split; [lia|]; exists []; now rewrite app_nil_r].
    destruct (findRequest_single _ _ _ Hlen Hfind) as [-> Hrem]. rewrite Hrem.
    unfold _setSemanticTokens.
    destruct resp, res; compute_step; repeat split; cbn [length]; try lia;
      eexists; (split; [rewrite <- ?app_assoc; reflexivity || (symmetry; apply app_nil_r)|reflexivity]).
  - destruct (findRequest id out) as [r|] eqn:Hfind; compute_step;
      [|repeat split; [lia|]; exists []; now rewrite app_nil_r].
    destruct (findRequest_single _ _ _ Hlen Hfind) as [-> Hrem]. rewrite Hrem.
    unfold _setSemanticTokens.
    destruct resp; compute_step; repeat split; cbn [length]; try lia;
      eexists; (split; [rewrite <- ?app_assoc; reflexivity|reflexivity]).
  - destruct resp; compute_step; repeat split; try lia;
      eexists; (split; [rewrite <- ?app_assoc; reflexivity || (symmetry; apply app_nil_r)|reflexivity]).
Qed.

Lemma quiet_run (w : World) (evs : list Event) :
  Inv w -> _isDisposed (coloring w) = true ->
  _currentRequestCancellationTokenSource (coloring w) = None ->
  length (outstanding (run applyEdit w evs)) <= length (outstanding w)
  /\ _isDisposed (coloring (run applyEdit w evs)) = true
  /\ exists l, effects (run applyEdit w evs) = effects w ++ l /\ forallb isQuiet l = true.
Proof.
  revert w. induction evs as [|ev evs IH]; intros w HInv Hd Hsrc.
  - split; [cbn; lia|]. split; [exact Hd|]. exists []. now rewrite app_nil_r.
  - destruct (quiet_step w ev HInv Hd Hsrc) as (Hd' & Hsrc' & Hlen & l1 & He1 & Hq1).
    destruct (IH (step applyEdit w ev) (Inv_step applyEdit w ev HInv) Hd' Hsrc')
      as (Hlen' & Hd'' & l2 & He2 & Hq2).
    cbn [run fold_left]. fold (run applyEdit (step applyEdit w ev) evs).
    split; [lia|]. split; [exact Hd''|]. exists (l1 ++ l2). split.
    + now rewrite He2, He1, app_assoc.
    + rewrite forallb_app, Hq1, Hq2. reflexivity.
Qed.

(** X16. A disposed colouring starts nothing.  Take any state a colouring
    can reach in which it is disposed: whatever events follow (content,
    theme and registry changes, elapsed windows, late completions and
    rejections, further disposals), the only effects are releases of
    responses and error reports: no provider is called, nothing is
    scheduled, nothing is cancelled, the token store is not written; and no
    provider call is added to those in progress. *)
Theorem disposed_colouring_is_quiet (th : ThemeResolver)
    (ps : list SemanticColoringProvider) (before after : list Event) :
  let w := run applyEdit (newColoring th ps) before in
  _isDisposed (coloring w) = true ->
  forallb isQuiet (added w (run applyEdit w after)) = true
  /\ length (outstanding (run applyEdit w after)) <= length (outstanding w)
  /\ _isDisposed (coloring (run applyEdit w after)) = true.
Proof.
  intros w Hd.
  assert (HInv : Inv w) by (apply Inv_run, Inv_new).
  assert (HT : TokenSourceInv w)
    by (apply TokenSourceInv_run; [apply Inv_new|apply TokenSourceInv_new]).
  destruct HT as (_ & _ & Hdead & _).
  destruct (quiet_run w after HInv Hd (Hdead Hd)) as (H1 & H2 & l & H3 & H4).
  rewrite (added_app _ _ _ H3). auto.
Qed.




Lemma live_step (w : World) (ev : Event) :
  _isDisposed (coloring w) = false -> isDisposal ev = false ->
  _isDisposed (coloring (step applyEdit w ev)) = false.
Proof.
  intros Hd Hev. destruct ev as [e|ps'|t| |id res|id err|]; try discriminate.
  - open_world w. destruct lst; compute_step; exact Hd.
  - open_world w. destruct lst; compute_step; exact Hd.
  - open_world w. destruct lst; compute_step; exact Hd.
  - open_world w. destruct armed, cts, ps; compute_step; exact Hd.
  - cbn [step]. destruct (findRequest id (outstanding w)); [|exact Hd].
    match goal with |- context [_setSemanticTokens applyEdit ?w0 ?t ?l ?p] =>
      destruct (setSemanticTokens_frame applyEdit w0 t l p) as (_ & H3 & _) end.
    rewrite H3. open_world w. compute_goal. exact Hd.
  - cbn [step]. destruct (findRequest id (outstanding w)); [|exact Hd].
    match goal with |- context [_setSemanticTokens applyEdit ?w0 ?t ?l ?p] =>
      destruct (setSemanticTokens_frame applyEdit w0 t l p) as (_ & H3 & _) end.
    rewrite H3. open_world w. compute_goal. exact Hd.
Qed.

Lemma live_run (w : World) (evs : list Event) :
  _isDisposed (coloring w) = false ->
  forallb (fun ev => negb (isDisposal ev)) evs = true ->
  _isDisposed (coloring (run applyEdit w evs)) = false.
Proof.
  revert w. induction evs as [|ev evs IH]; intros w Hd Hevs; [exact Hd|].
  cbn [forallb] in Hevs. apply andb_true_iff in Hevs as [Hev Hrest].
  apply negb_true_iff in Hev.
  cbn [run fold_left]. apply IH; [now apply live_step|exact Hrest].
Qed.

(** X18. A token result is decoded with the legend of the provider the
    call was sent to and with the theme that is current when the result
    arrives, and is then adjusted by every content change since the call.
    Whatever happens during the call short of its completion or disposal
    (content changes, registry changes that replace the provider, theme
    changes, elapsed windows), the store afterwards holds the areas of the
    result decoded and adjusted in this way. *)
Theorem result_decoded_with_request_legend (w : World) (r : Request)
    (during : list Event) (tokens : SemanticColoring) :
  Inv w -> _isDisposed (coloring w) = false -> outstanding w = [r] ->
  forallb (fun ev => negb (isCompletion ev)) during = true ->
  forallb (fun ev => negb (isDisposal ev)) during = true ->
  let w1 := run applyEdit w during in
  semanticTokens (step applyEdit w1 (RequestResolved (requestId r) (Some tokens)))
  = Some (adjust applyEdit (pendingChanges r ++ contentChangesOf during)
                 (map (decode_area (getLegend (requestProvider r)) (theme w1))
                      (areas tokens))).
Proof.
  intros HInv Hd Hout Hc Hdis w1.
  assert (Hout1 : outstanding w1
                  = [mkRequest (requestId r) (requestProvider r)
                               (pendingChanges r ++ contentChangesOf during)]).
  { clear Hdis Hd. unfold w1. clear w1. revert w r HInv Hout Hc.
    induction during as [|ev evs IH]; intros w r HInv Hout Hevs.
    - cbn. rewrite app_nil_r. rewrite Hout. now destruct r.
    - cbn [forallb] in Hevs. apply andb_true_iff in Hevs as [Hev Hrest].
      apply negb_true_iff in Hev.
      cbn [run fold_left]. fold (run applyEdit (step applyEdit w ev) evs).
      rewrite (IH (step applyEdit w ev) _ (Inv_step applyEdit w ev HInv)
                  (step_keeps_request w ev r HInv Hout Hev) Hrest).
      cbn [requestId requestProvider pendingChanges].
      rewrite <- app_assoc. change (ev :: evs) with ([ev] ++ evs).
      unfold contentChangesOf. rewrite flat_map_app. reflexivity. }
  assert (Hd1 : _isDisposed (coloring w1) = false) by now apply live_run.
  clearbody w1.
  destruct w1 as [[d1 resp1 cts1 armed1 lst1] out1 toks1 th1 ps1 nxt1 eff1].
  cbn [coloring outstanding theme _isDisposed] in *. subst d1 out1.
  cbn [step findRequest find outstanding requestId]. rewrite Nat.eqb_refl.
  unfold _setSemanticTokens.
  destruct resp1, (pendingChanges r ++ contentChangesOf during) eqn:E;
    compute_step; cbn [requestProvider pendingChanges]; rewrite ?E; reflexivity.
Qed.

End ColoringExtras.

Section ColoringExtrasWitnesses.

Lemma pending_changes_in_order_witness :
  let w := run keepArea (newColoring themeAll [sampleProvider]) [TimerElapsed] in
  outstanding w = [mkRequest 0 sampleProvider []]
  /\ outstanding (run keepArea w [ContentChanged prependX; TimerElapsed; Disposed;
                         ContentChanged prependX])
     = [mkRequest 0 sampleProvider [prependX; prependX]].
Proof.
  split; [reflexivity|].
  exact (pending_changes_in_order keepArea
           (run keepArea (newColoring themeAll [sampleProvider]) [TimerElapsed])
           (mkRequest 0 sampleProvider [])
           [ContentChanged prependX; TimerElapsed; Disposed; ContentChanged prependX]
           (Inv_run keepArea _ _ (Inv_new _ _)) eq_refl eq_refl).
Defined.

Lemma responses_released_or_held_witness :
  let evs := [TimerElapsed; RequestResolved 0 (Some sampleResponse); Disposed] in
  let w := run keepArea (newColoring themeAll [sampleProvider]) evs in
  _isDisposed (coloring w) = true
  /\ length (filter isRelease (effects w)) = 1.
Proof.
  split; [reflexivity|].
  exact (eq_trans
           (proj2 (proj2 (responses_released_or_held keepArea themeAll [sampleProvider]
                            [TimerElapsed; RequestResolved 0 (Some sampleResponse); Disposed])
                         eq_refl))
           eq_refl).
Defined.

Lemma cancel_only_at_disposal_witness :
  let w := run keepArea (newColoring themeAll [sampleProvider]) [TimerElapsed] in
  _isDisposed (coloring w) = false
  /\ filter isCancel (effects w) = []
  /\ filter isCancel (added w (step keepArea w Disposed)) = [ECancel 0].
Proof.
  split; [reflexivity|]. split.
  - exact (proj1 (proj2 (proj2 (cancel_only_at_disposal keepArea themeAll [sampleProvider]
                                  [TimerElapsed]))) eq_refl).
  - exact (proj1 (cancel_only_at_disposal keepArea themeAll [sampleProvider] [TimerElapsed])
                 Disposed).
Defined.

Lemma token_store_written_on_completion_witness :
  let w := run keepArea (newColoring themeAll [sampleProvider])
               [TimerElapsed; RequestResolved 0 (Some sampleResponse)] in
  semanticTokens w = Some [mkMultilineTokens2 1 [0; 0; 3; 77]%Z]
  /\ semanticTokens (step keepArea w (ThemeChanged themeNone)) = semanticTokens w.
Proof.
  split; [reflexivity|].
  exact (proj2 (token_store_written_on_completion keepArea
                  (run keepArea (newColoring themeAll [sampleProvider])
                       [TimerElapsed; RequestResolved 0 (Some sampleResponse)])
                  (ThemeChanged themeNone))
               eq_refl).
Defined.

Lemma disposed_colouring_is_quiet_witness :
  let w := run keepArea (newColoring themeAll [sampleProvider]) [TimerElapsed; Disposed] in
  _isDisposed (coloring w) = true
  /\ forallb isQuiet
       (added w (run keepArea w [ContentChanged prependX; TimerElapsed;
                        RequestRejected 0 "late"; ThemeChanged themeNone; TimerElapsed]))
     = true.
Proof.
  split; [reflexivity|].
  exact (proj1 (disposed_colouring_is_quiet keepArea themeAll [sampleProvider]
                  [TimerElapsed; Disposed]
                  [ContentChanged prependX; TimerElapsed;
                   RequestRejected 0 "late"; ThemeChanged themeNone; TimerElapsed]
                  eq_refl)).
Defined.


Lemma result_decoded_with_request_legend_witness :
  let w := run keepArea (newColoring themeAll [sampleProvider]) [TimerElapsed] in
  outstanding w = [mkRequest 0 sampleProvider []]
  /\ semanticTokens
       (run keepArea w [ContentChanged prependX; ProvidersChanged [];
               RequestResolved 0 (Some sampleResponse)])
     = Some [mkMultilineTokens2 1 [0; 0; 3; 77]%Z].
Proof.
  split; [reflexivity|].
  exact (eq_trans
           (result_decoded_with_request_legend keepArea
              (run keepArea (newColoring themeAll [sampleProvider]) [TimerElapsed])
              (mkRequest 0 sampleProvider [])
              [ContentChanged prependX; ProvidersChanged []] sampleResponse
              (Inv_run keepArea _ _ (Inv_new _ _)) eq_refl eq_refl eq_refl eq_refl)
           eq_refl).
Defined.

End ColoringExtrasWitnesses.
